(** * mirage/flow: a shallow embedding of the workflow engine (flow/flow.go)

    Nodes are Go pointers whose [next] field is written by the builder, so
    the node graph lives in an explicit store: a [heap] is a list of cells
    and a pointer is an index into it.  The interface value [Node] is either
    nil or a pointer.  The functions a flow wraps (actions, predicates,
    interceptors) are arbitrary Go closures; they are modelled as state
    transformers over an abstract world [W] that stands for everything they
    can observe or change through the context.

    [run] follows the five [run] methods of flow.go, one branch per
    receiver type; recursion through the pointer graph is bounded by fuel
    (a cyclic graph makes the Go code recurse without end).  The goroutines
    of a parallel node are run step by step, one call of a wrapped function
    at a time, in the order that a scheduler oracle chooses. *)

From stdpp Require Import base option list relations strings gmap.
From Stdlib Require Import Lia.
From Stdlib Require Strings.Ascii.

(** A Go [error] value that is not nil carries a message. *)
Definition error := string.

(** A pointer to a node, and the interface value [Node] (nil is [None]). *)
Abbreviation loc := nat.
Abbreviation Node := (option loc).

Section Engine.

Context {W : Type}.

(** What a call returns: the world it leaves and its [error] (nil is [None]). *)
Definition result : Type := W * option error.

(** [type Interceptor func(context.Context, Node) error] *)
Definition Interceptor : Type := Node -> W -> result.

(** The five receiver types.  [base.name] and [baseNode.next] are the first
    two fields of the four chain nodes; a [Flow] has [head]/[tail] and its
    two interceptor lists. *)
Inductive cell : Type :=
| doNode (name : string) (next : Node) (fn : W -> result)
| conditionalNode (name : string) (next : Node)
    (condition : W -> W * bool) (trueBranch : Node)
| sequenceNode (name : string) (next : Node) (nodes : list Node)
| parallelNode (name : string) (next : Node) (nodes : list Node)
| Flow (name : string) (head tail : Node)
    (flowInterceptors nodeInterceptors : list Interceptor).

Abbreviation heap := (list cell).

(** ** Execution *)

(** [for _, i := range interceptors { if err := i(ctx, n); err != nil { return err } }] *)
Fixpoint run_interceptors (ics : list Interceptor) (n : Node) (w : W) : result :=
  match ics with
  | [] => (w, None)
  | i :: rest =>
      match i n w with
      | (w', Some e) => (w', Some e)
      | (w', None) => run_interceptors rest n w'
      end
  end.

(** ** Goroutines

    Inside a parallel node every sub-node runs in a goroutine of its own, and
    the calls the goroutines make (interceptors, actions, predicates)
    interleave.  So the five [run] methods are also given one call at a time.
    A [proc] is what a goroutine still has to do:
    - [Ret r]: its function returns [r];
    - [Act call]: one call of a wrapped Go function, which changes the world
      and decides how to go on;
    - [Call n ics k]: [if n != nil { if err := n.run(ctx, ics); err != nil
      { return err } }] and then [k];
    - [Fork nodes ics k]: lines 295-319 of [parallelNode.run], one goroutine
      for every entry of [nodes] and the range loop over [errChan]; when the
      loop yields an error the function returns it, when the channel is
      closed the function goes on as [k].
    In all five methods the error of a callee is returned unchanged and at
    once, so that [k] is only what follows a nil error.  A call of a wrapped
    function is one step: the functions are state transformers, and what goes
    on inside one of them is not interleaved with the other goroutines. *)
#[warnings="-register-all"]
Inductive proc : Type :=
| Ret (r : option error)
| Act (call : W -> W * proc)
| Call (n : Node) (ics : list Interceptor) (k : proc)
| Fork (nodes : list Node) (ics : list Interceptor) (k : proc).

(** The interceptor loop, one interceptor call per step. *)
Fixpoint interceptor_steps (ics : list Interceptor) (n : Node) (k : proc) : proc :=
  match ics with
  | [] => k
  | i :: rest =>
      Act (fun w =>
             match i n w with
             | (w', Some e) => (w', Ret (Some e))
             | (w', None) => (w', interceptor_steps rest n k)
             end)
  end.

(** [doNode.run]: the interceptors, [n.fn(ctx)], then [n.next]. *)
Definition doNode_steps (l : loc) (next : Node) (fn : W -> result)
    (ics : list Interceptor) (k : proc) : proc :=
  interceptor_steps ics (Some l)
    (Act (fun w =>
            match fn w with
            | (w', Some e) => (w', Ret (Some e))
            | (w', None) => (w', Call next ics k)
            end)).

(** [conditionalNode.run]: the interceptors, [n.condition(ctx)], the branch
    when the predicate holds and the branch is not nil, then [n.next]. *)
Definition conditionalNode_steps (l : loc) (next : Node)
    (condition : W -> W * bool) (trueBranch : Node)
    (ics : list Interceptor) (k : proc) : proc :=
  interceptor_steps ics (Some l)
    (Act (fun w =>
            let '(w', b) := condition w in
            (w', Call (if b then trueBranch else None) ics (Call next ics k)))).

(** [sequenceNode.run]: the sub-nodes in list order, then [n.next]. *)
Definition sequenceNode_steps (next : Node) (nodes : list Node)
    (ics : list Interceptor) (k : proc) : proc :=
  foldr (fun node rest => Call node ics rest) (Call next ics k) nodes.

(** [parallelNode.run]: the interceptors, the goroutines, then [n.next]. *)
Definition parallelNode_steps (l : loc) (next : Node) (nodes : list Node)
    (ics : list Interceptor) (k : proc) : proc :=
  interceptor_steps ics (Some l) (Fork nodes ics (Call next ics k)).

(** [Flow.run]: nothing for an empty chain; else the flow interceptors on
    nil, then the head under the flow's own node interceptors. *)
Definition Flow_steps (head : Node)
    (flowInterceptors nodeInterceptors : list Interceptor) (k : proc) : proc :=
  match head with
  | None => k
  | Some hd => interceptor_steps flowInterceptors None (Call (Some hd) nodeInterceptors k)
  end.

(** Entering [Call n ics k]: nothing to do for nil, else the body of the
    method that the cell at [n] implements.  [None]: [n] is not allocated. *)
Definition enter (h : heap) (n : Node) (ics : list Interceptor) (k : proc)
  : option proc :=
  match n with
  | None => Some k
  | Some l =>
      match h !! l with
      | None => None
      | Some (doNode _ next fn) => Some (doNode_steps l next fn ics k)
      | Some (conditionalNode _ next condition trueBranch) =>
          Some (conditionalNode_steps l next condition trueBranch ics k)
      | Some (sequenceNode _ next nodes) => Some (sequenceNode_steps next nodes ics k)
      | Some (parallelNode _ next nodes) => Some (parallelNode_steps l next nodes ics k)
      | Some (Flow _ head _ flowInterceptors nodeInterceptors) =>
          Some (Flow_steps head flowInterceptors nodeInterceptors k)
      end
  end.

(** A goroutine either runs ([Runs p]: it has [p] to do), or it is the
    caller of a parallel node that sits in [for err := range errChan] with
    the goroutines [units] it has started (indices into the pool), and that
    goes on as [k] when the loop ends.  A goroutine that has returned is
    [Runs (Ret r)]. *)
Inductive thread : Type :=
| Runs (p : proc)
| Ranges (units : list nat) (k : proc).

Abbreviation pool := (list thread).

(** What the goroutine [t] has returned, if it has. *)
Definition returned (ts : pool) (t : nat) : option (option error) :=
  match ts !! t with
  | Some (Runs (Ret r)) => Some r
  | _ => None
  end.

Definition failed (ts : pool) (t : nat) : bool :=
  match returned ts t with Some (Some _) => true | _ => false end.

Definition passed (ts : pool) (t : nat) : bool :=
  match returned ts t with Some None => true | _ => false end.

(** What the Go scheduler can let happen next:
    - [Advance t]: the running goroutine [t] takes its next step;
    - [Receive t u]: the range loop of [t] yields the error of its unit [u].
      A unit that has returned an error sends it; the send cannot block
      (the channel has room for every unit) and changes nothing else, so any
      unit that has failed may be the one whose error is first in the
      channel (module [Par] has the protocol itself);
    - [Proceed t]: every unit of [t] has returned nil, so that the closer
      goroutine has closed the empty channel and the range loop of [t] ends. *)
Inductive action : Type :=
| Advance (t : nat)
| Receive (t u : nat)
| Proceed (t : nat).

Definition thread_actions (ts : pool) (t : nat) (th : thread) : list action :=
  match th with
  | Runs (Ret _) => []
  | Runs _ => [Advance t]
  | Ranges units _ =>
      (Receive t <$> List.filter (failed ts) units)
      ++ (if forallb (passed ts) units then [Proceed t] else [])
  end.

Fixpoint actions_from (ts : pool) (t : nat) (ths : list thread) : list action :=
  match ths with
  | [] => []
  | th :: rest => thread_actions ts t th ++ actions_from ts (S t) rest
  end.

Definition actions (ts : pool) : list action := actions_from ts 0 ts.

(** One action.  A goroutine that receives an error returns it; its other
    units stay in the pool and go on running: nothing cancels them, and
    nobody waits for them any more. *)
Definition fire (h : heap) (a : action) (ts : pool) (w : W) : option (pool * W) :=
  match a with
  | Advance t =>
      match ts !! t with
      | Some (Runs (Act call)) =>
          let '(w', p) := call w in Some (<[t := Runs p]> ts, w')
      | Some (Runs (Call n ics k)) =>
          match enter h n ics k with
          | Some p => Some (<[t := Runs p]> ts, w)
          | None => None
          end
      | Some (Runs (Fork nodes ics k)) =>
          Some (<[t := Ranges (seq (length ts) (length nodes)) k]> ts
                  ++ ((fun node => Runs (Call node ics (Ret None))) <$> nodes), w)
      | _ => None
      end
  | Receive t u =>
      match ts !! t, returned ts u with
      | Some (Ranges _ _), Some (Some e) => Some (<[t := Runs (Ret (Some e))]> ts, w)
      | _, _ => None
      end
  | Proceed t =>
      match ts !! t with
      | Some (Ranges _ k) => Some (<[t := Runs k]> ts, w)
      | _ => None
      end
  end.

(** The goroutines run until none of them can move.  At step [i] the oracle
    [pick] chooses among the actions that are possible: [pick i] is the
    position of the chosen one, the last one when [pick i] is too large.
    [None]: the fuel ran out, or a goroutine called a node that is not
    allocated. *)
Fixpoint machine (h : heap) (pick : nat -> nat) (fuel : nat) (i : nat)
    (ts : pool) (w : W) : option (pool * W) :=
  match actions ts with
  | [] => Some (ts, w)
  | a :: rest =>
      match fuel with
      | O => None
      | S fuel' =>
          match fire h (default a ((a :: rest) !! (pick i `min` length rest))) ts w with
          | Some (ts', w') => machine h pick fuel' (S i) ts' w'
          | None => None
          end
      end
  end.

(** The scheduler oracle: [sched l] schedules the goroutines that the
    parallel node at [l] starts. *)
Context (sched : loc -> nat -> nat).

Section Dispatch.

(** [rec] is the interface call [node.run(ctx, interceptors)]. *)
Variable rec : loc -> list Interceptor -> W -> option result.

(** [if n.next != nil { return n.next.run(ctx, interceptors) }; return nil] *)
Definition run_next (next : Node) (ics : list Interceptor) (w : W)
  : option result :=
  match next with
  | Some l => rec l ics w
  | None => Some (w, None)
  end.

(** [for _, node := range n.nodes { if node != nil { if err := node.run(..);
    err != nil { return err } } }] *)
Fixpoint run_each (nodes : list Node) (ics : list Interceptor) (w : W)
  : option result :=
  match nodes with
  | [] => Some (w, None)
  | None :: rest => run_each rest ics w
  | Some l :: rest =>
      match rec l ics w with
      | Some (w', None) => run_each rest ics w'
      | r => r
      end
  end.

(** [func (n *doNode) run(ctx, interceptors) error]; [l] is the receiver. *)
Definition doNode_run (l : loc) (next : Node) (fn : W -> result)
    (ics : list Interceptor) (w : W) : option result :=
  match run_interceptors ics (Some l) w with
  | (w1, Some e) => Some (w1, Some e)
  | (w1, None) =>
      match fn w1 with
      | (w2, Some e) => Some (w2, Some e)
      | (w2, None) => run_next next ics w2
      end
  end.

(** [func (n *conditionalNode) run(ctx, interceptors) error].  The branch
    runs when [n.condition(ctx) && n.trueBranch != nil]. *)
Definition conditionalNode_run (l : loc) (next : Node)
    (condition : W -> W * bool) (trueBranch : Node)
    (ics : list Interceptor) (w : W) : option result :=
  match run_interceptors ics (Some l) w with
  | (w1, Some e) => Some (w1, Some e)
  | (w1, None) =>
      let '(w2, b) := condition w1 in
      match (if b then trueBranch else None) with
      | Some t =>
          match rec t ics w2 with
          | Some (w3, None) => run_next next ics w3
          | r => r
          end
      | None => run_next next ics w2
      end
  end.

(** [func (n *sequenceNode) run(ctx, interceptors) error].  There is no
    interceptor loop in this method. *)
Definition sequenceNode_run (next : Node) (nodes : list Node)
    (ics : list Interceptor) (w : W) : option result :=
  match run_each nodes ics w with
  | Some (w1, None) => run_next next ics w1
  | r => r
  end.

(** [func (n *parallelNode) run(ctx, interceptors) error].

    After the interceptor loop the method is one goroutine among those it
    starts: [machine] runs them all, step by step in the order [sched l]
    chooses, until none can move.  The method returns the error its range
    loop received, or goes on with [n.next] when the loop ended.  The world
    in the result is the one in which every goroutine has come to rest; when
    a sub-node has failed the method itself has returned before that (see
    module [Par]), and the effects of the goroutines it left behind are in
    that world all the same.  [steps] bounds the steps of the machine. *)
Definition parallelNode_run (h : heap) (steps : nat) (l : loc) (next : Node)
    (nodes : list Node) (ics : list Interceptor) (w : W) : option result :=
  match run_interceptors ics (Some l) w with
  | (w1, Some e) => Some (w1, Some e)
  | (w1, None) =>
      match machine h (sched l) steps 0 [Runs (Fork nodes ics (Ret None))] w1 with
      | Some (ts, w2) =>
          match returned ts 0 with
          | Some (Some e) => Some (w2, Some e)
          | Some None => run_next next ics w2
          | None => None
          end
      | None => None
      end
  end.

(** [func (f *Flow) run(ctx, interceptors) error].  The parameter
    [interceptors] is not used in the body. *)
Definition Flow_run (head : Node) (flowInterceptors nodeInterceptors : list Interceptor)
    (ics : list Interceptor) (w : W) : option result :=
  match head with
  | None => Some (w, None)
  | Some hd =>
      match run_interceptors flowInterceptors None w with
      | (w1, Some e) => Some (w1, Some e)
      | (w1, None) => rec hd nodeInterceptors w1
      end
  end.

(** The method of the interface [Node] that the cell [c] at [l] implements. *)
Definition dispatch (h : heap) (steps : nat) (c : cell) (l : loc)
    (ics : list Interceptor) (w : W) : option result :=
  match c with
  | doNode _ next fn => doNode_run l next fn ics w
  | conditionalNode _ next condition trueBranch =>
      conditionalNode_run l next condition trueBranch ics w
  | sequenceNode _ next nodes => sequenceNode_run next nodes ics w
  | parallelNode _ next nodes => parallelNode_run h steps l next nodes ics w
  | Flow _ head _ flowInterceptors nodeInterceptors =>
      Flow_run head flowInterceptors nodeInterceptors ics w
  end.

End Dispatch.

(** [node.run(ctx, interceptors)] for the node [l] points to.  [None] means
    that the fuel ran out or that [l] is not allocated.  The fuel bounds the
    depth of the calls, and the steps of the goroutines of a parallel node. *)
Fixpoint run (fuel : nat) (h : heap) (l : loc) (ics : list Interceptor) (w : W)
  : option result :=
  match fuel with
  | O => None
  | S fuel' =>
      match h !! l with
      | None => None
      | Some c => dispatch (run fuel' h) h fuel' c l ics w
      end
  end.

(** [func (f *Flow) Run(ctx context.Context) error].  The receiver has the
    static type [*Flow]; [fuel] bounds the call [f.head.run]. *)
Definition Run (fuel : nat) (h : heap) (f : loc) (w : W) : option result :=
  match h !! f with
  | Some (Flow _ head _ flowInterceptors nodeInterceptors) =>
      match head with
      | None => Some (w, None)
      | Some hd =>
          match run_interceptors flowInterceptors None w with
          | (w1, Some e) => Some (w1, Some e)
          | (w1, None) => run fuel h hd nodeInterceptors w1
          end
      end
  | _ => None
  end.

(** ** The builder *)

(** [&T{...}]: a new cell at the end of the store. *)
Definition alloc (h : heap) (c : cell) : loc * heap := (length h, h ++ [c]).

(** [baseNode.getNext] reads, and [baseNode.setNext] writes, the [next] field. *)
Definition base_next (c : cell) : option Node :=
  match c with
  | doNode _ next _ => Some next
  | conditionalNode _ next _ _ => Some next
  | sequenceNode _ next _ => Some next
  | parallelNode _ next _ => Some next
  | Flow _ _ _ _ _ => None
  end.

Definition with_next (c : cell) (next : Node) : cell :=
  match c with
  | doNode nm _ fn => doNode nm next fn
  | conditionalNode nm _ cond tb => conditionalNode nm next cond tb
  | sequenceNode nm _ ns => sequenceNode nm next ns
  | parallelNode nm _ ns => parallelNode nm next ns
  | Flow nm hd tl fi ni => Flow nm hd tl fi ni
  end.

(** [f.tail = t] and [f.head = hd; f.tail = tl] on the flow at [f]. *)
Definition set_tail (h : heap) (f : loc) (t : Node) : option heap :=
  match h !! f with
  | Some (Flow nm hd _ fi ni) => Some (<[f := Flow nm hd t fi ni]> h)
  | _ => None
  end.

Definition set_head_tail (h : heap) (f : loc) (hd tl : Node) : option heap :=
  match h !! f with
  | Some (Flow nm _ _ fi ni) => Some (<[f := Flow nm hd tl fi ni]> h)
  | _ => None
  end.

(** [setNext], dispatched on the receiver: [baseNode.setNext] for the four
    chain nodes, [Flow.setNext] for a flow (which forwards to its tail, hence
    the fuel). *)
Fixpoint setNext (fuel : nat) (h : heap) (l : loc) (next : Node) : option heap :=
  match fuel with
  | O => None
  | S fuel' =>
      match h !! l with
      | None => None
      | Some (Flow _ _ tail _ _) =>
          match tail with
          | None => Some h
          | Some t =>
              match setNext fuel' h t next with
              | Some h1 => set_tail h1 l next
              | None => None
              end
          end
      | Some c => Some (<[l := with_next c next]> h)
      end
  end.

(** [getNext], dispatched the same way. *)
Fixpoint getNext (fuel : nat) (h : heap) (l : loc) : option Node :=
  match fuel with
  | O => None
  | S fuel' =>
      match h !! l with
      | None => None
      | Some (Flow _ _ tail _ _) =>
          match tail with
          | None => Some None
          | Some t => getNext fuel' h t
          end
      | Some c => base_next c
      end
  end.

(** A chain of [tail] links that does not loop is no longer than the store. *)
Definition depth (h : heap) : nat := S (length h).

(** [func New(name string) *Flow] *)
Definition New (name : string) (h : heap) : loc * heap :=
  alloc h (Flow name None None [] []).

(** [func (f *Flow) Name() string] *)
Definition Name (h : heap) (f : loc) : option string :=
  match h !! f with
  | Some (Flow name _ _ _ _) => Some name
  | _ => None
  end.

(** [func (f *Flow) appendNode(node Node)].  A method call on a nil [tail]
    panics ([None]). *)
Definition appendNode (f : loc) (node : Node) (h : heap) : option heap :=
  match h !! f with
  | Some (Flow _ head tail _ _) =>
      match head with
      | None => set_head_tail h f node node
      | Some _ =>
          match tail with
          | None => None
          | Some t =>
              match setNext (depth h) h t node with
              | Some h1 => set_tail h1 f node
              | None => None
              end
          end
      end
  | _ => None
  end.

(** [func (f *Flow) appendFlow(flowNode *Flow)] *)
Definition appendFlow (f : loc) (flowNode : loc) (h : heap) : option heap :=
  match h !! flowNode with
  | Some (Flow _ fhead ftail _ _) =>
      match fhead with
      | None => Some h
      | Some _ =>
          match h !! f with
          | Some (Flow _ head tail _ _) =>
              match head with
              | None => set_head_tail h f fhead ftail
              | Some _ =>
                  match tail with
                  | None => None
                  | Some t =>
                      match setNext (depth h) h t fhead with
                      | Some h1 =>
                          match h1 !! flowNode with
                          | Some (Flow _ _ ftail1 _ _) => set_tail h1 f ftail1
                          | _ => None
                          end
                      | None => None
                      end
                  end
              end
          | _ => None
          end
      end
  | _ => None
  end.

(** [func (f *Flow) Then(node Node) *Flow]: the type switch; a nil
    interface value reaches the [default] branch, which panics. *)
Definition Then (f : loc) (node : Node) (h : heap) : option heap :=
  match node with
  | None => None
  | Some l =>
      match h !! l with
      | Some (Flow _ _ _ _ _) => appendFlow f l h
      | Some _ => appendNode f node h
      | None => None
      end
  end.

(** [func Do(name string, fn func(context.Context) error) Node] *)
Definition Do (name : string) (fn : W -> result) (h : heap) : loc * heap :=
  alloc h (doNode name None fn).

(** [func (f *Flow) Do(name string, fn ...) *Flow] *)
Definition Flow_Do (f : loc) (name : string) (fn : W -> result) (h : heap)
  : option heap :=
  let '(node, h1) := alloc h (doNode name None fn) in
  appendNode f (Some node) h1.

(** [func (f *Flow) If(name string, cond ..., trueBranch Node) *Flow] *)
Definition Flow_If (f : loc) (name : string) (cond : W -> W * bool)
    (trueBranch : Node) (h : heap) : option heap :=
  let '(condNode, h1) := alloc h (conditionalNode name None cond trueBranch) in
  appendNode f (Some condNode) h1.

(** The filter loop shared by [InSequence] and [InParallel]:
    [for _, node := range nodes { if node != nil { filteredNodes = append(..) } }] *)
Fixpoint filteredNodes (nodes : list Node) : list Node :=
  match nodes with
  | [] => []
  | None :: rest => filteredNodes rest
  | Some l :: rest => Some l :: filteredNodes rest
  end.

(** [func InSequence(name string, nodes ...Node) Node] *)
Definition InSequence (name : string) (nodes : list Node) (h : heap) : loc * heap :=
  alloc h (sequenceNode name None (filteredNodes nodes)).

(** [func InParallel(name string, nodes ...Node) Node] *)
Definition InParallel (name : string) (nodes : list Node) (h : heap) : loc * heap :=
  alloc h (parallelNode name None (filteredNodes nodes)).

(** [func (f *Flow) AddFlowInterceptor(i Interceptor) *Flow] *)
Definition AddFlowInterceptor (f : loc) (i : Interceptor) (h : heap) : option heap :=
  match h !! f with
  | Some (Flow nm hd tl fi ni) => Some (<[f := Flow nm hd tl (fi ++ [i]) ni]> h)
  | _ => None
  end.

(** [func (f *Flow) AddNodeInterceptor(i Interceptor) *Flow] *)
Definition AddNodeInterceptor (f : loc) (i : Interceptor) (h : heap) : option heap :=
  match h !! f with
  | Some (Flow nm hd tl fi ni) => Some (<[f := Flow nm hd tl fi (ni ++ [i])]> h)
  | _ => None
  end.

(** ** Reference semantics used to state the properties *)

(** A chain of action nodes: [n] points to the first, every [next] to the
    following one, the last [next] is nil.  [acts] lists the pointers with
    the functions the nodes wrap. *)
Fixpoint do_chain (h : heap) (n : Node) (acts : list (loc * (W -> result))) : Prop :=
  match acts with
  | [] => n = None
  | (l, fn) :: rest =>
      n = Some l /\
      exists name next, h !! l = Some (doNode name next fn) /\ do_chain h next rest
  end.

(** The actions of a list run one after the other, each once and each after
    the node interceptors, up to the first failure. *)
Fixpoint exec_actions (ics : list Interceptor) (acts : list (loc * (W -> result)))
    (w : W) : result :=
  match acts with
  | [] => (w, None)
  | (l, fn) :: rest =>
      match run_interceptors ics (Some l) w with
      | (w1, Some e) => (w1, Some e)
      | (w1, None) =>
          match fn w1 with
          | (w2, Some e) => (w2, Some e)
          | (w2, None) => exec_actions ics rest w2
          end
      end
  end.

(** A chain of nodes of any of the four chain kinds, from [n] to a nil
    [next], through the pointers [locs]. *)
Fixpoint chain (h : heap) (n : Node) (locs : list loc) : Prop :=
  match locs with
  | [] => n = None
  | l :: rest =>
      n = Some l /\
      exists c next, h !! l = Some c /\ base_next c = Some next /\ chain h next rest
  end.

(** What the node at [l] does by itself: its [run] method with the [next]
    link cut, that is, without the final call of [next.run]. *)
Definition work (fuel : nat) (h : heap) (l : loc) (ics : list Interceptor) (w : W)
  : option result :=
  match h !! l with
  | None => None
  | Some c => dispatch (run fuel h) h fuel (with_next c None) l ics w
  end.

(** The nodes of a list do their work one after the other, up to the first
    failure. *)
Fixpoint run_chain (fuel : nat) (h : heap) (ics : list Interceptor)
    (locs : list loc) (w : W) : option result :=
  match locs with
  | [] => Some (w, None)
  | l :: rest =>
      match work fuel h l ics w with
      | Some (w', None) => run_chain fuel h ics rest w'
      | r => r
      end
  end.

(** The flow-level interceptors, then the nodes of [locs] in order under
    the one list [nics] of node-level interceptors. *)
Definition run_flow_chain (fuel : nat) (h : heap) (fics nics : list Interceptor)
    (locs : list loc) (w : W) : option result :=
  match run_interceptors fics None w with
  | (w1, Some e) => Some (w1, Some e)
  | (w1, None) => run_chain fuel h nics locs w1
  end.

End Engine.

Arguments cell : clear implicits.
Arguments proc : clear implicits.
Arguments thread : clear implicits.
Arguments Interceptor : clear implicits.
Arguments result : clear implicits.

(** ** The coordination inside [parallelNode.run] (flow.go, lines 295-319)

    After its interceptors, a parallel node starts one goroutine per
    sub-node, a closer goroutine that waits on the WaitGroup and closes
    [errChan], and then ranges over [errChan].  The transition system below
    has one transition for each thing one of these threads can do next; the
    result of [node.run] inside a goroutine is given ([outcome]).  It is the
    protocol behind the actions [Receive] and [Proceed] of the goroutines
    above. *)
Module Par.

(** A goroutine of the loop at line 299: [node.run] has not returned yet;
    it returned an error, which has been sent on [errChan], and the deferred
    [wg.Done] has not run yet; [wg.Done] has run. *)
Inductive worker_pc : Type := Running | Sent | Finished.

Record worker : Type := Worker { pc : worker_pc; outcome : option error }.

(** The thread that called [run]: in the range loop of line 315, returned
    from it with an error (line 317), or past it (line 321). *)
Inductive main_pc : Type := Ranging | Returned (e : error) | AtNext.

Record state : Type := State {
  workers : list worker;
  errChan : list error;
  closed : bool;
  main : main_pc
}.

(** All goroutines started; nothing has happened yet.  The channel has the
    capacity [len(n.nodes)], which is [length (workers s)] in every state. *)
Definition init (outs : list (option error)) : state :=
  State (Worker Running <$> outs) [] false Ranging.

Definition set_worker (s : state) (i : nat) (u : worker) : state :=
  State (<[i := u]> (workers s)) (errChan s) (closed s) (main s).

Inductive step : state -> state -> Prop :=
| step_ok s i :
    (* node.run returned nil (or node is nil); wg.Done *)
    workers s !! i = Some (Worker Running None) ->
    step s (set_worker s i (Worker Finished None))
| step_send s i e :
    (* node.run returned e; errChan <- e, which needs room in the buffer *)
    workers s !! i = Some (Worker Running (Some e)) ->
    length (errChan s) < length (workers s) ->
    step s (State (<[i := Worker Sent (Some e)]> (workers s))
                  (errChan s ++ [e]) (closed s) (main s))
| step_done s i o :
    (* the deferred wg.Done after a send *)
    workers s !! i = Some (Worker Sent o) ->
    step s (set_worker s i (Worker Finished o))
| step_close s :
    (* wg.Wait returns when every goroutine has called Done; close(errChan) *)
    Forall (fun u => pc u = Finished) (workers s) ->
    closed s = false ->
    step s (State (workers s) (errChan s) true (main s))
| step_recv s e rest :
    (* the range loop receives e, which is not nil: return err *)
    main s = Ranging ->
    errChan s = e :: rest ->
    step s (State (workers s) rest (closed s) (Returned e))
| step_end s :
    (* the channel is drained and closed: the range loop ends *)
    main s = Ranging ->
    errChan s = [] ->
    closed s = true ->
    step s (State (workers s) (errChan s) (closed s) AtNext).

(** The states the machine can be in for the outcomes [outs]. *)
Definition reachable (outs : list (option error)) (s : state) : Prop :=
  rtc step (init outs) s.

(** How much is left to do: every transition lowers it. *)
Definition pc_weight (p : worker_pc) : nat :=
  match p with Running => 2 | Sent => 1 | Finished => 0 end.

Fixpoint workers_weight (us : list worker) : nat :=
  match us with
  | [] => 0
  | u :: rest => pc_weight (pc u) + workers_weight rest
  end.

Definition measure (s : state) : nat :=
  workers_weight (workers s)
  + (if closed s then 0 else 1)
  + (match main s with Ranging => 1 | _ => 0 end).

(** The goroutines whose [node.run] has returned. *)
Fixpoint returned_count (us : list worker) : nat :=
  match us with
  | [] => 0
  | u :: rest =>
      (match pc u with Running => 0 | _ => 1 end) + returned_count rest
  end.

(** What holds in every reachable state. *)
Record inv (outs : list (option error)) (s : state) : Prop := Inv {
  inv_outs : outcome <$> workers s = outs;
  inv_chan : forall e, e ∈ errChan s -> Some e ∈ outs;
  inv_main : forall e, main s = Returned e -> Some e ∈ outs;
  inv_pending : main s = Ranging ->
    forall i p e, workers s !! i = Some (Worker p (Some e)) ->
    p <> Running -> e ∈ errChan s;
  inv_closed : closed s = true ->
    forall i u, workers s !! i = Some u -> pc u = Finished;
  inv_next : main s = AtNext -> forall o, o ∈ outs -> o = None;
  inv_room : length (errChan s) <= returned_count (workers s);
  inv_joined : main s = AtNext ->
    forall i u, workers s !! i = Some u -> pc u = Finished
}.

End Par.

(** ** Concrete flows

    A world that records what happened: which node an interceptor was fired
    for, and which action ran. *)
Module Demo.

Inductive entry : Type := Fired (n : Node) | Acted (name : string).

(** A builder call can panic; a script of calls stops at the first panic. *)
Definition and_then {A B} (m : option A) (k : A -> option B) : option B :=
  match m with
  | Some a => k a
  | None => None
  end.

Notation "m >>= k" := (and_then m k) (at level 50, left associativity).

Definition journal : Type := list entry.

Definition act (name : string) : journal -> result journal :=
  fun w => (w ++ [Acted name], None).

Definition failing (name : string) (e : error) : journal -> result journal :=
  fun w => (w ++ [Acted name], Some e).

Definition tracer : Interceptor journal :=
  fun n w => (w ++ [Fired n], None).

Definition veto (e : error) : Interceptor journal :=
  fun n w => (w ++ [Fired n], Some e).

Definition always (b : bool) : journal -> journal * bool :=
  fun w => (w, b).

(** A scheduler that always lets the first of the possible actions happen,
    so that the goroutines of a parallel node run one after the other in list
    order, and one that prefers the later ones. *)
Definition in_order : loc -> nat -> nat := fun _ _ => 0.

Definition in_reverse : loc -> nat -> nat := fun _ k => S k.

(** The store a script leaves (empty if a call panicked). *)
Definition built (m : option (list (cell journal))) : list (cell journal) :=
  default [] m.

(** [flow.New("f").Do("a1", ..).Do("a2", ..).Do("a3", ..).AddNodeInterceptor(tracer)],
    the second action failing; the flow is at pointer 0, the actions at 1, 2
    and 3. *)
Definition three_actions : list (cell journal) :=
  let '(f, h) := New "f" [] in
  built (Some h >>= Flow_Do f "a1" (act "a1")
                >>= Flow_Do f "a2" (failing "a2" "boom")
                >>= Flow_Do f "a3" (act "a3")
                >>= AddNodeInterceptor f tracer).

(** [flow.New("f").AddNodeInterceptor(tracer).Then(flow.InSequence("s", flow.Do("a", ..)))]:
    the flow at 0, the action at 1, the sequence node at 2. *)
Definition sequence_flow : list (cell journal) :=
  let '(f, h0) := New "f" [] in
  let '(a, h1) := Do "a" (act "a") h0 in
  let '(s, h2) := InSequence "s" [Some a] h1 in
  built (Some h2 >>= AddNodeInterceptor f tracer >>= Then f (Some s)).

(** [flow.New("f").If("c", pred, flow.Do("x", ..)).Do("y", ..)] with a
    predicate that is constantly [b]: the flow at 0, the branch at 1, the
    conditional node at 2, the action [y] at 3. *)
Definition conditional_flow (b : bool) : list (cell journal) :=
  let '(f, h0) := New "f" [] in
  let '(x, h1) := Do "x" (act "x") h0 in
  built (Some h1 >>= Flow_If f "c" (always b) (Some x)
                 >>= Flow_Do f "y" (act "y")).

(** Two flows of two actions each, before [f1.Then(f2)]: [f1] at 0 with
    its actions at 1 and 2, [f2] at 3 with its actions at 4 and 5; [f1] has a
    node-level interceptor, [f2] a flow-level one that always fails. *)
Definition two_flows : list (cell journal) :=
  let '(f1, h0) := New "f1" [] in
  let h1 := built (Some h0 >>= Flow_Do f1 "a" (act "a")
                           >>= Flow_Do f1 "b" (act "b")
                           >>= AddNodeInterceptor f1 tracer) in
  let '(f2, h2) := New "f2" h1 in
  built (Some h2 >>= Flow_Do f2 "c" (act "c")
                 >>= Flow_Do f2 "d" (act "d")
                 >>= AddFlowInterceptor f2 (veto "unused")).

(** A flow with one action and three flow-level interceptors, the second
    of which fails. *)
Definition vetoed_flow : list (cell journal) :=
  let '(f, h) := New "f" [] in
  built (Some h >>= Flow_Do f "a" (act "a")
                >>= AddFlowInterceptor f tracer
                >>= AddFlowInterceptor f (veto "denied")
                >>= AddFlowInterceptor f tracer).

(** [flow.New("f").Then(flow.InParallel("p", flow.Do("A", ..), flow.Do("B", ..)))]
    with two actions that fail: the flow at 0, the actions at 1 and 2, the
    parallel node at 3. *)
Definition two_failures : list (cell journal) :=
  let '(f, h0) := New "f" [] in
  let '(a, h1) := Do "A" (failing "A" "A failed") h0 in
  let '(b, h2) := Do "B" (failing "B" "B failed") h1 in
  let '(p, h3) := InParallel "p" [Some a; Some b] h2 in
  built (Some h3 >>= Then f (Some p)).

(** [flow.New("f").Do("a", ..)]: the flow at 0, the action at 1. *)
Definition one_action : list (cell journal) :=
  let '(f, h) := New "f" [] in
  built (Some h >>= Flow_Do f "a" (act "a")).

(** A flow without nodes, whose interceptors would fail if they were run. *)
Definition empty_flow : list (cell journal) :=
  let '(f, h) := New "f" [] in
  built (Some h >>= AddFlowInterceptor f (veto "denied")
                >>= AddNodeInterceptor f (veto "denied")).


End Demo.

(** * Properties *)

(** ** Flows as the builder makes them *)

Section Built.

Context {W : Type}.

(** The shape the builder gives a flow: [head] is the first and [tail] the
    last of the nodes [locs], which the [next] links go through up to nil. *)
Definition wf_flow (h : list (cell W)) (f : loc) (name : string)
    (fics nics : list (Interceptor W)) (locs : list loc) : Prop :=
  h !! f = Some (Flow name (head locs) (last locs) fics nics) /\
  chain h (head locs) locs.

(** [f.Do(name1, fn1).Do(name2, fn2)...]: the calls one after the other. *)
Fixpoint do_all (f : loc) (acts : list (string * (W -> result W)))
    (h : list (cell W)) : option (list (cell W)) :=
  match acts with
  | [] => Some h
  | (name, fn) :: rest =>
      match Flow_Do f name fn h with
      | Some h' => do_all f rest h'
      | None => None
      end
  end.

(** Where an error can come from: an interceptor of the list a node is run
    with or of one of the lists of a flow in the store, or the function of an
    action node in the store. *)
Definition interceptor_of (h : list (cell W)) (ics : list (Interceptor W))
    (i : Interceptor W) : Prop :=
  i ∈ ics \/
  exists f name hd tl fics nics,
    h !! f = Some (Flow name hd tl fics nics) /\ (i ∈ fics \/ i ∈ nics).

Definition error_source (h : list (cell W)) (ics : list (Interceptor W))
    (e : error) : Prop :=
  (exists i n w w', interceptor_of h ics i /\ i n w = (w', Some e)) \/
  (exists l name next fn w w',
     h !! l = Some (doNode name next fn) /\ fn w = (w', Some e)).

(** A goroutine whose errors all have such a source, whatever the world is
    in which its calls are made. *)
Inductive passes_on (h : list (cell W)) (ics0 : list (Interceptor W))
  : proc W -> Prop :=
| passes_on_nil : passes_on h ics0 (Ret None)
| passes_on_error e : error_source h ics0 e -> passes_on h ics0 (Ret (Some e))
| passes_on_Act call :
    (forall w, passes_on h ics0 (call w).2) -> passes_on h ics0 (Act call)
| passes_on_Call n ics k :
    (forall i, i ∈ ics -> interceptor_of h ics0 i) ->
    passes_on h ics0 k -> passes_on h ics0 (Call n ics k)
| passes_on_Fork nodes ics k :
    (forall i, i ∈ ics -> interceptor_of h ics0 i) ->
    passes_on h ics0 k -> passes_on h ics0 (Fork nodes ics k).

(** What a goroutine can return, in some world or other: the worlds in which
    its calls are made depend on what the other goroutines do in between.
    The caller of a parallel section returns the error that one of its
    goroutines returns, or goes on when all of them return nil. *)
Inductive may_return (h : list (cell W)) : proc W -> option error -> Prop :=
| may_return_Ret r : may_return h (Ret r) r
| may_return_Act call w r :
    may_return h (call w).2 r -> may_return h (Act call) r
| may_return_Call n ics k p r :
    enter h n ics k = Some p -> may_return h p r ->
    may_return h (Call n ics k) r
| may_return_Fork_error nodes ics k node e :
    node ∈ nodes -> may_return h (Call node ics (Ret None)) (Some e) ->
    may_return h (Fork nodes ics k) (Some e)
| may_return_Fork_next nodes ics k r :
    (forall node, node ∈ nodes -> may_return h (Call node ics (Ret None)) None) ->
    may_return h k r -> may_return h (Fork nodes ics k) r.

(** [os] lists what the goroutines of the pool were started as: whatever a
    goroutine can still return, it could return from its start; and the
    goroutines a ranging goroutine waits for were started as the runs of the
    sub-nodes of its parallel section. *)
Definition started_as (h : list (cell W)) (os : list (proc W))
    (ts : list (thread W)) : Prop :=
  length os = length ts /\
  forall t th p0, ts !! t = Some th -> os !! t = Some p0 ->
    match th with
    | Runs p => forall r, may_return h p r -> may_return h p0 r
    | Ranges us k =>
        exists nodes ics,
          (forall r, may_return h (Fork nodes ics k) r -> may_return h p0 r) /\
          Forall2 (fun u node => os !! u = Some (Call node ics (Ret None))) us nodes
    end.

(** A store without parallel nodes. *)
Definition sequential (h : list (cell W)) : Prop :=
  forall l name next nodes, h !! l <> Some (parallelNode name next nodes).

(** A goroutine that is by itself in the pool gets from [p] in [w] to [p']
    in [w'], whatever the oracle is. *)
Definition alone (h : list (cell W)) (p : proc W) (w : W) (p' : proc W) (w' : W)
  : Prop :=
  exists n, forall pick fuel i,
    machine h pick (n + fuel) i [Runs p] w = machine h pick fuel (i + n) [Runs p'] w'.

Definition pool_passes_on (h : list (cell W)) (ics0 : list (Interceptor W))
    (ts : list (thread W)) : Prop :=
  forall t th, ts !! t = Some th ->
    match th with
    | Runs p => passes_on h ics0 p
    | Ranges _ k => passes_on h ics0 k
    end.



End Built.

(** ** Keys and logger scopes (clients/redis.go, clients/logger.go) *)

Module Clients.

Import Stdlib.Strings.Ascii.

(** [func RedisID(prefix string, id string) string]:
    [fmt.Sprintf("%s:%s", prefix, id)] *)
Definition RedisID (prefix id : string) : string :=
  prefix +:+ ":" +:+ id.

(** [func ProtoKey(prefix string, messageType string, id string) string]:
    [fmt.Sprintf("%s:%s:%s", prefix, messageType, id)] *)
Definition ProtoKey (prefix messageType id : string) : string :=
  prefix +:+ ":" +:+ messageType +:+ ":" +:+ id.

(** Whether the byte [:] occurs in a string. *)
Fixpoint has_colon (s : string) : bool :=
  match s with
  | EmptyString => false
  | String a rest => if Ascii.eqb a ":"%char then true else has_colon rest
  end.

(** [for k, v := range entries { newScopes[k] = v }], the entries in the
    order in which the loop happens to visit them (Go leaves it open). *)
Definition range_assign (entries : list (string * string))
    (newScopes : gmap string string) : gmap string string :=
  foldl (fun m kv => <[kv.1 := kv.2]> m) newScopes entries.

(** [type LoggingClient struct]; the zap logger is a handle. *)
Record LoggingClient : Type := {
  scopes : gmap string string;
  sugar : nat
}.

(** [func (l *LoggingClient) Named(scopes map[string]string) Logger], for
    the orders [order1] and [order2] in which the two loops visit the entries
    of [l.scopes] and of [scopes]. *)
Definition Named (order1 order2 : list (string * string)) (l : LoggingClient)
  : LoggingClient :=
  {| scopes := range_assign order2 (range_assign order1 ∅);
     sugar := sugar l |}.

End Clients.

(** ** More concrete flows *)

Module Scenes.

Import Demo.

(** [flow.New("f").Then(flow.InSequence("s", a, b, c)).Do("y", ..)] with
    three actions built by [flow.Do], the second of which fails: the flow at
    0, the actions at 1, 2 and 3, the sequence node at 4, [y] at 5. *)
Definition failing_sequence : list (cell journal) :=
  let '(f, h0) := New "f" [] in
  let '(a, h1) := Do "a" (act "a") h0 in
  let '(b, h2) := Do "b" (failing "b" "boom") h1 in
  let '(c, h3) := Do "c" (act "c") h2 in
  let '(s, h4) := InSequence "s" [Some a; Some b; Some c] h3 in
  built (Some h4 >>= Then f (Some s) >>= Flow_Do f "y" (act "y")).

(** [flow.New("f").Then(flow.InParallel("p", flow.Do("A", ..), flow.Do("B", ..))).Do("y", ..)]
    where A fails and B does not: the flow at 0, the actions at 1 and 2, the
    parallel node at 3, [y] at 4. *)
Definition one_failure : list (cell journal) :=
  let '(f, h0) := New "f" [] in
  let '(a, h1) := Do "A" (failing "A" "A failed") h0 in
  let '(b, h2) := Do "B" (act "B") h1 in
  let '(p, h3) := InParallel "p" [Some a; Some b] h2 in
  built (Some h3 >>= Then f (Some p) >>= Flow_Do f "y" (act "y")).

(** [flow.New("f").Then(flow.InParallel("p", fa, fb)).Do("y", ..)] where
    [fa] is [flow.New("fa").Do("a1", ..).Do("a2", ..)] and [fb] likewise:
    [fa] at 0 with its actions at 1 and 2, [fb] at 3 with its actions at 4
    and 5, [f] at 6, the parallel node at 7, [y] at 8. *)
Definition two_units : list (cell journal) :=
  let '(fa, h0) := New "fa" [] in
  let h1 := built (Some h0 >>= Flow_Do fa "a1" (act "a1")
                           >>= Flow_Do fa "a2" (act "a2")) in
  let '(fb, h2) := New "fb" h1 in
  let h3 := built (Some h2 >>= Flow_Do fb "b1" (act "b1")
                           >>= Flow_Do fb "b2" (act "b2")) in
  let '(f, h4) := New "f" h3 in
  let '(p, h5) := InParallel "p" [Some fa; Some fb] h4 in
  built (Some h5 >>= Then f (Some p) >>= Flow_Do f "y" (act "y")).

(** A scheduler that lets the first and the last of the goroutines that can
    move take turns. *)
Definition taking_turns : loc -> nat -> nat :=
  fun _ i => if Nat.even i then 0 else i.

(** A logger with one scope, and scopes to add. *)
Definition api_logger : Clients.LoggingClient :=
  {| Clients.scopes := {[ "svc" := "api" ]}; Clients.sugar := 0 |}.

Definition worker_scopes : gmap string string :=
  {[ "svc" := "worker" ]}.

End Scenes.

(** ** The goroutines of a parallel node *)

Section MachineFacts.

Context {W : Type}.

Implicit Types (h : list (cell W)) (ts : list (thread W)) (w : W) (a : action)
  (p k : proc W) (ics : list (Interceptor W)) (e : error) (os : list (proc W)).

Lemma elem_of_actions_from ts t0 ths a :
  a ∈ actions_from ts t0 ths <->
  exists t th, ths !! t = Some th /\ a ∈ thread_actions ts (t0 + t) th.
Proof.
  revert t0. induction ths as [|th ths IH]; intros t0; simpl.
  - split; [by intros ?%elem_of_nil | by intros (t & th & ? & _)].
  - rewrite elem_of_app, IH. split.
    + intros [Ha | (t & th' & Ht & Ha)].
      * exists 0, th. by rewrite Nat.add_0_r.
      * exists (S t), th'. split; [done|].
        by replace (t0 + S t) with (S t0 + t) by lia.
    + intros ([|t] & th' & Ht & Ha); simpl in Ht.
      * injection Ht as <-. left. by rewrite Nat.add_0_r in Ha.
      * right. exists t, th'. split; [done|].
        by replace (S t0 + t) with (t0 + S t) by lia.
Qed.

(** The actions of a pool are the actions of its goroutines. *)
Lemma elem_of_actions ts a :
  a ∈ actions ts <-> exists t th, ts !! t = Some th /\ a ∈ thread_actions ts t th.
Proof. unfold actions. by rewrite elem_of_actions_from. Qed.

(** The oracle chooses one of the possible actions. *)
Lemma pick_elem_of (acts : list action) a (m : nat) :
  default a ((a :: acts) !! (m `min` length acts)) ∈ a :: acts.
Proof.
  destruct ((a :: acts) !! (m `min` length acts)) as [b|] eqn:Hb; simpl.
  - by eapply list_elem_of_lookup_2.
  - left.
Qed.

(** More fuel does not change what the machine returns. *)
Lemma machine_mono h pick fuel fuel' i ts w r :
  fuel <= fuel' ->
  machine h pick fuel i ts w = Some r -> machine h pick fuel' i ts w = Some r.
Proof.
  revert fuel' i ts w. induction fuel as [|fuel IH]; intros fuel' i ts w Hle; simpl.
  - destruct fuel'; simpl; by destruct (actions ts).
  - destruct fuel' as [|fuel']; [lia|]. simpl.
    destruct (actions ts) as [|a rest]; [done|].
    destruct (fire h _ ts w) as [[ts1 w1]|]; [|done].
    apply IH. lia.
Qed.

(** What every action keeps holds when the machine has come to rest. *)
Lemma machine_rest h (P : list (thread W) -> W -> Prop) pick fuel i ts w ts' w' :
  (forall a ts1 w1 ts2 w2,
     P ts1 w1 -> a ∈ actions ts1 -> fire h a ts1 w1 = Some (ts2, w2) -> P ts2 w2) ->
  P ts w ->
  machine h pick fuel i ts w = Some (ts', w') ->
  P ts' w' /\ actions ts' = [].
Proof.
  intros Hstep. revert i ts w.
  induction fuel as [|fuel IH]; intros i ts w HP; simpl.
  - destruct (actions ts) eqn:Ha; [|done]. by intros [= <- <-].
  - destruct (actions ts) as [|a rest] eqn:Ha; [by intros [= <- <-]|].
    destruct (fire h _ ts w) as [[ts1 w1]|] eqn:Hf; [|done].
    apply IH. eapply Hstep; [done| |done].
    rewrite Ha. apply pick_elem_of.
Qed.

(** A parallel node without sub-nodes: the goroutine starts nothing, the
    channel is closed at once and the range loop ends. *)
Lemma machine_no_units h pick fuel i ics w :
  machine h pick (S (S fuel)) i [Runs (Fork [] ics (Ret None))] w
  = Some ([Runs (Ret None)], w).
Proof.
  cbn. rewrite Nat.min_0_r. cbn. rewrite Nat.min_0_r. cbn. by destruct fuel.
Qed.

Lemma returned_Some ts t r :
  returned ts t = Some r <-> ts !! t = Some (Runs (Ret r)).
Proof.
  unfold returned. split.
  - destruct (ts !! t) as [[[]|]|]; intros; simplify_eq; done.
  - by intros ->.
Qed.

Lemma failed_Some ts t : failed ts t = true <-> exists e, returned ts t = Some (Some e).
Proof.
  unfold failed. destruct (returned ts t) as [[e|]|]; split; try done; eauto.
  all: by intros [? ?].
Qed.

Lemma passed_Some ts t : passed ts t = true <-> returned ts t = Some None.
Proof.
  unfold passed. by destruct (returned ts t) as [[e|]|].
Qed.

(** An action changes the goroutine it names, and may start new ones. *)
Lemma fire_inv h a ts w ts' w' :
  fire h a ts w = Some (ts', w') ->
  exists t th th' new,
    ts !! t = Some th /\ (forall r, th <> Runs (Ret r)) /\
    ts' = <[t := th']> ts ++ new /\
    match a with
    | Advance t0 => t0 = t /\
        match th with
        | Runs (Act call) => th' = Runs (call w).2 /\ w' = (call w).1 /\ new = []
        | Runs (Call n ics k) =>
            exists p, enter h n ics k = Some p /\ th' = Runs p /\ w' = w /\ new = []
        | Runs (Fork nodes ics k) =>
            th' = Ranges (seq (length ts) (length nodes)) k /\ w' = w /\
            new = (fun node => Runs (Call node ics (Ret None))) <$> nodes
        | _ => False
        end
    | Receive t0 u => t0 = t /\ w' = w /\ new = [] /\
        exists us k e, th = Ranges us k /\ returned ts u = Some (Some e) /\
                       th' = Runs (Ret (Some e))
    | Proceed t0 => t0 = t /\ w' = w /\ new = [] /\
        exists us k, th = Ranges us k /\ th' = Runs k
    end.
Proof.
  destruct a as [t|t u|t]; simpl.
  - destruct (ts !! t) as [[[r|call|n ics k|nodes ics k]|]|] eqn:Ht; try done.
    + destruct (call w) as [w1 p] eqn:Hc. intros [= <- <-].
      exists t, (Runs (Act call)), (Runs p), []. rewrite app_nil_r, Hc.
      repeat split; done.
    + destruct (enter h n ics k) as [p|] eqn:He; [|done]. intros [= <- <-].
      exists t, (Runs (Call n ics k)), (Runs p), []. rewrite app_nil_r.
      repeat split; try done. by exists p.
    + intros [= <- <-].
      eexists t, (Runs (Fork nodes ics k)), _, _. repeat split; done.
  - destruct (ts !! t) as [[|us k]|] eqn:Ht; try done.
    destruct (returned ts u) as [[e|]|] eqn:Hu; try done. intros [= <- <-].
    exists t, (Ranges us k), (Runs (Ret (Some e))), []. rewrite app_nil_r.
    repeat split; try done. by exists us, k, e.
  - destruct (ts !! t) as [[|us k]|] eqn:Ht; try done. intros [= <- <-].
    exists t, (Ranges us k), (Runs k), []. rewrite app_nil_r.
    repeat split; try done. by exists us, k.
Qed.






Lemma elem_of_filter_failed ts (us : list nat) u :
  u ∈ List.filter (failed ts) us <-> u ∈ us /\ exists e, returned ts u = Some (Some e).
Proof. by rewrite !list_elem_of_In, filter_In, failed_Some. Qed.

Lemma forallb_passed ts (us : list nat) :
  forallb (passed ts) us = true <-> forall u, u ∈ us -> returned ts u = Some None.
Proof.
  rewrite forallb_forall. split; intros H u Hu.
  - apply passed_Some, H. by apply list_elem_of_In.
  - apply passed_Some, H. by apply list_elem_of_In.
Qed.

(** When the range loop of [t] can yield the error of [u], then [u] is one of
    the goroutines [t] has started, and it has returned an error. *)
Lemma Receive_enabled ts t u :
  Receive t u ∈ actions ts ->
  exists us k e, ts !! t = Some (Ranges us k) /\ u ∈ us /\
                 returned ts u = Some (Some e).
Proof.
  intros (t1 & th & Ht1 & Ha)%elem_of_actions.
  destruct th as [[r|call|n ics k|nodes ics k]|us k]; simpl in Ha;
    try (by apply elem_of_nil in Ha);
    try (by apply list_elem_of_singleton in Ha).
  apply elem_of_app in Ha as [Ha|Ha].
  - apply list_elem_of_fmap in Ha as (u' & [= <- <-] & Hu).
    apply elem_of_filter_failed in Hu as [Hu [e He]]. by exists us, k, e.
  - destruct (forallb (passed ts) us); [|by apply elem_of_nil in Ha].
    by apply list_elem_of_singleton in Ha.
Qed.

(** When the range loop of [t] can end, all its goroutines have returned nil. *)
Lemma Proceed_enabled ts t :
  Proceed t ∈ actions ts ->
  exists us k, ts !! t = Some (Ranges us k) /\
               forall u, u ∈ us -> returned ts u = Some None.
Proof.
  intros (t1 & th & Ht1 & Ha)%elem_of_actions.
  destruct th as [[r|call|n ics k|nodes ics k]|us k]; simpl in Ha;
    try (by apply elem_of_nil in Ha);
    try (by apply list_elem_of_singleton in Ha).
  apply elem_of_app in Ha as [Ha|Ha].
  - by apply list_elem_of_fmap in Ha as (u' & [=] & _).
  - destruct (forallb (passed ts) us) eqn:Hall; [|by apply elem_of_nil in Ha].
    apply list_elem_of_singleton in Ha as [= <-].
    exists us, k. split; [done|]. by apply forallb_passed.
Qed.






(** ** The errors of goroutines *)

Lemma interceptor_steps_passes_on h ics0 ics n k :
  (forall i, i ∈ ics -> interceptor_of h ics0 i) ->
  passes_on h ics0 k -> passes_on h ics0 (interceptor_steps ics n k).
Proof.
  intros Hics Hk. induction ics as [|i ics IH]; simpl; [done|].
  constructor. intros w. destruct (i n w) as [w1 [e|]] eqn:Hi; simpl.
  - constructor. left. exists i, n, w, w1. split; [|done].
    apply Hics. left.
  - apply IH. intros i' Hi'. apply Hics. by right.
Qed.

Lemma enter_passes_on h ics0 n ics k p :
  passes_on h ics0 (Call n ics k) ->
  enter h n ics k = Some p -> passes_on h ics0 p.
Proof.
  inversion_clear 1 as [| | |? ? ? Hics Hk|].
  destruct n as [l|]; simpl; [|by intros [= <-]].
  destruct (h !! l) as [[nm next fn|nm next cond tb|nm next nodes|nm next nodes
                          |nm hd tl fi ni]|] eqn:Hl; intros [= <-].
  - apply interceptor_steps_passes_on; [done|].
    constructor. intros w. destruct (fn w) as [w1 [e|]] eqn:Hfn; simpl.
    + constructor. right. by exists l, nm, next, fn, w, w1.
    + by constructor.
  - apply interceptor_steps_passes_on; [done|].
    constructor. intros w. destruct (cond w) as [w1 b]; simpl.
    constructor; [done|]. by constructor.
  - unfold sequenceNode_steps.
    clear Hl. induction nodes as [|node nodes IH]; simpl;
      by apply passes_on_Call.
  - apply interceptor_steps_passes_on; [done|].
    constructor; [done|]. by constructor.
  - unfold Flow_steps. destruct hd as [hd|]; [|done].
    assert (forall i, i ∈ fi \/ i ∈ ni -> interceptor_of h ics0 i) as Hflow.
    { intros i Hi. right. by exists l, nm, (Some hd), tl, fi, ni. }
    apply interceptor_steps_passes_on; [auto|].
    constructor; auto.
Qed.

Lemma fire_passes_on h ics0 a ts w ts' w' :
  pool_passes_on h ics0 ts -> fire h a ts w = Some (ts', w') ->
  pool_passes_on h ics0 ts'.
Proof.
  intros Hts (t & th & th' & new & Ht & _ & -> & Ha)%fire_inv.
  pose proof (lookup_lt_Some _ _ _ Ht) as Hlt.
  pose proof (Hts _ _ Ht) as Hth.
  assert (match th' with
          | Runs p => passes_on h ics0 p
          | Ranges _ k => passes_on h ics0 k
          end /\
          forall x, x ∈ new -> exists node nodes ics k,
            x = Runs (Call node ics (Ret None)) /\
            th = Runs (Fork nodes ics k)) as [Hth' Hnew].
  { destruct a as [t1|t1 u|t1].
    - destruct Ha as [-> Ha].
      destruct th as [[r|call|n ics k|nodes ics k]|]; try done.
      + destruct Ha as (-> & _ & ->). split; [|by intros x ?%elem_of_nil].
        by inversion_clear Hth.
      + destruct Ha as (p & He & -> & _ & ->).
        split; [|by intros x ?%elem_of_nil]. by eapply enter_passes_on.
      + destruct Ha as (-> & _ & ->). split; [by inversion_clear Hth|].
        intros x (node & -> & _)%list_elem_of_fmap.
        by exists node, nodes, ics, k.
    - destruct Ha as (_ & _ & -> & us & k & e & -> & He & ->).
      split; [|by intros x ?%elem_of_nil].
      apply returned_Some in He. exact (Hts _ _ He).
    - destruct Ha as (_ & _ & -> & us & k & -> & ->).
      split; [done|by intros x ?%elem_of_nil]. }
  intros t0 th0 Ht0. apply lookup_app_Some in Ht0 as [Ht0|[_ Ht0]].
  - destruct (decide (t0 = t)) as [->|Hne].
    + rewrite list_lookup_insert_eq in Ht0 by done. by injection Ht0 as <-.
    + rewrite list_lookup_insert_ne in Ht0 by done. exact (Hts _ _ Ht0).
  - apply list_elem_of_lookup_2 in Ht0.
    destruct (Hnew _ Ht0) as (node & nodes & ics & k & -> & ->).
    inversion_clear Hth. constructor; [done|constructor].
Qed.

(** The error a parallel section ends with has its source in the store. *)
Lemma parallel_section_error h pick fuel nodes ics w ts w' e :
  machine h pick fuel 0 [Runs (Fork nodes ics (Ret None))] w = Some (ts, w') ->
  returned ts 0 = Some (Some e) -> error_source h ics e.
Proof.
  intros Hm Hr.
  apply (machine_rest h (fun ts _ => pool_passes_on h ics ts)) in Hm as [Hts _].
  - apply returned_Some in Hr. pose proof (Hts _ _ Hr) as Hp.
    by inversion_clear Hp.
  - intros a ts1 w1 ts2 w2 H1 _ Hf. by eapply fire_passes_on.
  - intros [|t] th Ht; simpl in Ht; [|by rewrite lookup_nil in Ht].
    injection Ht as <-. constructor; [|constructor].
    intros i Hi. by left.
Qed.

(** ** What the goroutines return *)

Lemma may_return_Ret_inv h r r' : may_return h (Ret r) r' -> r' = r.
Proof. by inversion 1. Qed.

Lemma fire_started_as h os a ts w ts' w' :
  started_as h os ts -> a ∈ actions ts -> fire h a ts w = Some (ts', w') ->
  exists new,
    started_as h (os ++ new) ts' /\
    forall nodes ics k,
      ts !! 0 = Some (Runs (Fork nodes ics k)) -> a = Advance 0 ->
      new = (fun node => Call node ics (Ret None)) <$> nodes.
Proof.
  intros [Hlen Hos] Hin Hfire.
  pose proof Hfire as (t & th & th' & new & Ht & Hth & -> & Ha)%fire_inv.
  pose proof (lookup_lt_Some _ _ _ Ht) as Hlt.
  destruct (lookup_lt_is_Some_2 os t) as [p0 Hp0]; [lia|].
  pose proof (Hos _ _ _ Ht Hp0) as Hfrom.
  exists ((fun th => match th with Runs p => p | Ranges _ k => k end) <$> new).
  split; [split|].
  - rewrite !length_app, length_insert, length_fmap. lia.
  - intros t0 th0 q0 Ht0 Hq0.
    apply lookup_app_Some in Ht0 as [Ht0|[Hge Ht0]].
    + pose proof (lookup_lt_Some _ _ _ Ht0) as Hlt0. rewrite length_insert in Hlt0.
      rewrite lookup_app_l in Hq0 by lia.
      assert (forall us nodes ics,
                Forall2 (fun u node => os !! u = Some (Call node ics (Ret None))) us nodes ->
                Forall2 (fun u node => (os ++ ((fun th => match th with Runs p => p | Ranges _ k => k end) <$> new)) !! u
                                       = Some (Call node ics (Ret None))) us nodes) as Hext.
      { intros us nodes ics H. eapply Forall2_impl; [exact H|].
        intros u node Hu. by apply lookup_app_l_Some. }
      destruct (decide (t0 = t)) as [->|Hne].
      * rewrite list_lookup_insert_eq in Ht0 by done. injection Ht0 as <-.
        rewrite Hp0 in Hq0. injection Hq0 as <-.
        destruct a as [t1|t1 u|t1].
        -- destruct Ha as [-> Ha].
           destruct th as [[r|call|n ics k0|nodes ics k0]|]; try done.
           ++ destruct Ha as (-> & _ & _). intros r Hr. apply Hfrom.
              by eapply may_return_Act.
           ++ destruct Ha as (p & He & -> & _ & _). intros r Hr. apply Hfrom.
              by eapply may_return_Call.
           ++ destruct Ha as (-> & _ & ->). exists nodes, ics. split; [done|].
              apply Forall2_same_length_lookup. split; [by rewrite length_seq|].
              intros i u node Hu Hnode. apply lookup_seq in Hu as [-> Hi].
              rewrite lookup_app_r by lia.
              replace (length ts + i - length os) with i by lia.
              rewrite <- list_fmap_compose. rewrite list_lookup_fmap, Hnode. done.
        -- destruct Ha as (-> & _ & _ & us & k0 & e & -> & He & ->).
           destruct Hfrom as (nodes & ics & Hreach & Hus).
           apply Receive_enabled in Hin as (us' & k' & e' & Hus' & Hu & _).
           rewrite Ht in Hus'. injection Hus' as <- <-.
           intros r ->%may_return_Ret_inv. apply Hreach.
           apply list_elem_of_lookup in Hu as [i Hi].
           destruct (Forall2_lookup_l _ _ _ _ _ Hus Hi) as (node & Hnode & Hou).
           apply (may_return_Fork_error _ _ _ _ node); [by eapply list_elem_of_lookup_2|].
           apply returned_Some in He.
           apply (Hos _ _ _ He Hou). constructor.
        -- destruct Ha as (-> & _ & _ & us & k0 & -> & ->).
           destruct Hfrom as (nodes & ics & Hreach & Hus).
           apply Proceed_enabled in Hin as (us' & k' & Hus' & Hall).
           rewrite Ht in Hus'. injection Hus' as <- <-.
           intros r Hr. apply Hreach. apply may_return_Fork_next; [|done].
           intros node Hnode. apply list_elem_of_lookup in Hnode as [i Hi].
           destruct (Forall2_lookup_r _ _ _ _ _ Hus Hi) as (u & Hu & Hou).
           pose proof (Hall u (list_elem_of_lookup_2 _ _ _ Hu)) as Hret.
           apply returned_Some in Hret.
           apply (Hos _ _ _ Hret Hou). constructor.
      * rewrite list_lookup_insert_ne in Ht0 by done.
        pose proof (Hos _ _ _ Ht0 Hq0) as H0.
        destruct th0 as [p|us k0]; [done|].
        destruct H0 as (nodes & ics & Hreach & Hus). exists nodes, ics. auto.
    + rewrite length_insert in Hge, Ht0.
      rewrite lookup_app_r in Hq0 by lia. rewrite Hlen in Hq0.
      rewrite list_lookup_fmap, Ht0 in Hq0. injection Hq0 as <-.
      destruct a as [t1|t1 u|t1].
      * destruct Ha as [-> Ha].
        destruct th as [[r|call|n ics k0|nodes ics k0]|]; try done.
        -- destruct Ha as (_ & _ & ->). by rewrite lookup_nil in Ht0.
        -- destruct Ha as (p & _ & _ & _ & ->). by rewrite lookup_nil in Ht0.
        -- destruct Ha as (_ & _ & ->).
           by apply list_lookup_fmap_Some in Ht0 as (node & -> & _).
      * destruct Ha as (_ & _ & -> & _). by rewrite lookup_nil in Ht0.
      * destruct Ha as (_ & _ & -> & _). by rewrite lookup_nil in Ht0.
  - intros nodes ics k H0 ->. destruct Ha as [<- Ha].
    rewrite H0 in Ht. injection Ht as <-.
    destruct Ha as (_ & _ & ->). by rewrite <- list_fmap_compose.
Qed.


(** What the goroutines have returned when the parallel section is at rest
    is something they could return from their start: the caller as the
    parallel section, the goroutine of a sub-node as the run of that
    sub-node. *)
Lemma parallel_section_results h pick fuel nodes ics w ts w' :
  machine h pick fuel 0 [Runs (Fork nodes ics (Ret None))] w = Some (ts, w') ->
  (forall r, returned ts 0 = Some r ->
     may_return h (Fork nodes ics (Ret None)) r) /\
  (forall j node o,
     nodes !! j = Some node -> returned ts (S j) = Some o ->
     may_return h (Call node ics (Ret None)) o).
Proof.
  intros Hm.
  apply (machine_rest h (fun ts _ =>
           exists os, started_as h os ts /\
             os !! 0 = Some (Fork nodes ics (Ret None)) /\
             (ts = [Runs (Fork nodes ics (Ret None))] \/
              forall j node, nodes !! j = Some node ->
                os !! (S j) = Some (Call node ics (Ret None)))))
    in Hm as [(os & [_ Hos] & H0 & Hunits) _].
  - split.
    + intros r Hret. apply returned_Some in Hret.
      apply (Hos _ _ _ Hret H0). constructor.
    + intros j node o Hnode Hret.
      destruct Hunits as [->|Hunits]; [done|].
      apply returned_Some in Hret.
      apply (Hos _ _ _ Hret (Hunits _ _ Hnode)). constructor.
  - intros a ts1 w1 ts2 w2 (os & Hos & H0 & Hunits) Ha Hf.
    destruct (fire_started_as _ _ _ _ _ _ _ Hos Ha Hf) as (new & Hos' & Hnew).
    exists (os ++ new). split; [done|].
    split; [by apply lookup_app_l_Some|]. right.
    destruct Hunits as [->|Hunits].
    + apply list_elem_of_singleton in Ha as ->.
      rewrite (Hnew nodes ics (Ret None)) by done.
      destruct Hos as [Hlen _]. destruct os as [|o0 [|o1 os]]; try done.
      intros j' node' Hj'. simpl. by rewrite list_lookup_fmap, Hj'.
    + intros j' node' Hj'. apply lookup_app_l_Some. eauto.
  - exists [Fork nodes ics (Ret None)]. split; [|split; [done|by left]].
    split; [done|]. intros [|t] th p0 Ht Hp0; simpl in *; [|by rewrite lookup_nil in Ht].
    by injection Ht as <-; injection Hp0 as <-.
Qed.

End MachineFacts.

Section EngineFacts.

Context {W : Type} (sched : loc -> nat -> nat).

Abbreviation heap := (list (cell W)).

Implicit Types (h : heap) (l f : loc) (n next : Node) (w : W)
  (ics fics nics : list (Interceptor W)) (r : result W) (e : error).

(** ** Interceptor lists *)

Lemma run_interceptors_app ics1 ics2 n w :
  run_interceptors (ics1 ++ ics2) n w =
  match run_interceptors ics1 n w with
  | (w1, Some e) => (w1, Some e)
  | (w1, None) => run_interceptors ics2 n w1
  end.
Proof.
  revert w. induction ics1 as [|i ics1 IH]; intros w; simpl.
  - by destruct (run_interceptors ics2 n w) as [w1 [e|]].
  - destruct (i n w) as [w1 [e|]]; [done|]. apply IH.
Qed.

(** ** More fuel never changes a result *)

Section Mono.

Variables rec rec' : loc -> list (Interceptor W) -> W -> option (result W).
Hypothesis rec_le : forall l ics w r, rec l ics w = Some r -> rec' l ics w = Some r.

Lemma run_next_mono n ics w r :
  run_next rec n ics w = Some r -> run_next rec' n ics w = Some r.
Proof. destruct n; simpl; auto. Qed.

Lemma run_each_mono nodes ics w r :
  run_each rec nodes ics w = Some r -> run_each rec' nodes ics w = Some r.
Proof.
  revert w. induction nodes as [|[l|] nodes IH]; intros w; simpl; auto.
  destruct (rec l ics w) as [[w1 [e|]]|] eqn:E; [| |done].
  - intros [= <-]. by rewrite (rec_le _ _ _ _ E).
  - rewrite (rec_le _ _ _ _ E). apply IH.
Qed.

End Mono.

Lemma dispatch_mono rec rec' h steps steps' c l ics w r :
  (forall l ics w r, rec l ics w = Some r -> rec' l ics w = Some r) ->
  steps <= steps' ->
  dispatch sched rec h steps c l ics w = Some r ->
  dispatch sched rec' h steps' c l ics w = Some r.
Proof.
  intros Hle Hsteps.
  pose proof (run_next_mono _ _ Hle) as Hnext.
  pose proof (run_each_mono _ _ Hle) as Heach.
  destruct c as [nm next fn|nm next cond tb|nm next nodes|nm next nodes
                 |nm hd tl fi ni]; simpl.
  - unfold doNode_run.
    destruct (run_interceptors ics (Some l) w) as [w1 [e|]]; [done|].
    destruct (fn w1) as [w2 [e|]]; [done|]. apply Hnext.
  - unfold conditionalNode_run.
    destruct (run_interceptors ics (Some l) w) as [w1 [e|]]; [done|].
    destruct (cond w1) as [w2 b].
    destruct (if b then tb else None) as [t|]; [|apply Hnext].
    destruct (rec t ics w2) as [[w3 [e|]]|] eqn:E; [| |done].
    + intros [= <-]. by rewrite (Hle _ _ _ _ E).
    + rewrite (Hle _ _ _ _ E). apply Hnext.
  - unfold sequenceNode_run.
    destruct (run_each rec nodes ics w) as [[w1 [e|]]|] eqn:E; [| |done].
    + intros [= <-]. by rewrite (Heach _ _ _ _ E).
    + rewrite (Heach _ _ _ _ E). apply Hnext.
  - unfold parallelNode_run.
    destruct (run_interceptors ics (Some l) w) as [w1 [e|]]; [done|].
    destruct (machine h (sched l) steps 0 _ w1) as [[ts w2]|] eqn:E; [|done].
    rewrite (machine_mono _ _ _ _ _ _ _ _ Hsteps E).
    destruct (returned ts 0) as [[e|]|]; [done|apply Hnext|done].
  - unfold Flow_run. destruct hd as [hd|]; [|done].
    destruct (run_interceptors fi None w) as [w1 [e|]]; [done|]. apply Hle.
Qed.

Lemma run_unfold fuel h l ics w :
  run sched (S fuel) h l ics w =
  match h !! l with
  | None => None
  | Some c => dispatch sched (run sched fuel h) h fuel c l ics w
  end.
Proof. reflexivity. Qed.

(** The error the loop over the sub-nodes stops with is the error of one of
    the sub-nodes, not one of its own making. *)
Lemma run_each_failure rec nodes ics w w' e :
  run_each rec nodes ics w = Some (w', Some e) ->
  exists l w0, Some l ∈ nodes /\ rec l ics w0 = Some (w', Some e).
Proof.
  revert w. induction nodes as [|[l|] nodes IH]; intros w; simpl; [done| |].
  - destruct (rec l ics w) as [[w1 [e1|]]|] eqn:E; [| |done].
    + intros [= -> ->]. exists l, w. split; [left|done].
    + intros H. destruct (IH _ H) as (l' & w0 & Hin & Hrec).
      exists l', w0. split; [by right|done].
  - intros H. destruct (IH _ H) as (l' & w0 & Hin & Hrec).
    exists l', w0. split; [by right|done].
Qed.

Lemma run_S fuel h l ics w r :
  run sched fuel h l ics w = Some r -> run sched (S fuel) h l ics w = Some r.
Proof.
  revert l ics w r. induction fuel as [|fuel IH]; intros l ics w r; [done|].
  rewrite (run_unfold fuel), (run_unfold (S fuel)).
  destruct (h !! l) as [c|]; [|done].
  apply dispatch_mono; [apply IH|lia].
Qed.

Lemma run_mono fuel fuel' h l ics w r :
  fuel <= fuel' ->
  run sched fuel h l ics w = Some r -> run sched fuel' h l ics w = Some r.
Proof.
  induction 1 as [|m _ IH]; [done|]. intros Hr. apply run_S. auto.
Qed.

(** ** The interceptor loop *)

(** An action, a conditional and a parallel node start with the interceptor
    loop on themselves: when an interceptor fails, its error is the result and
    nothing else of the node has run. *)
Lemma interceptor_failure_aborts rec h steps c l ics w w1 e :
  match c with
  | doNode _ _ _ | conditionalNode _ _ _ _ | parallelNode _ _ _ => True
  | sequenceNode _ _ _ | Flow _ _ _ _ _ => False
  end ->
  run_interceptors ics (Some l) w = (w1, Some e) ->
  dispatch sched rec h steps c l ics w = Some (w1, Some e).
Proof.
  intros Hc Hic. destruct c; simpl in *; try done.
  - unfold doNode_run. by rewrite Hic.
  - unfold conditionalNode_run. by rewrite Hic.
  - unfold parallelNode_run. by rewrite Hic.
Qed.

(** ** [Flow.Run] and [Flow.run] *)


(** C8. A flow whose chain is empty ([head] is nil) succeeds at once, with
    any fuel, and leaves the world as it found it, whatever its flow-level
    and node-level interceptors are: nothing is invoked. *)
Theorem Run_empty_flow fuel h f name tl fics nics w :
  h !! f = Some (Flow name None tl fics nics) ->
  Run sched fuel h f w = Some (w, None).
Proof. intros Hf. unfold Run. by rewrite Hf. Qed.

(** C6. In a flow that is not empty, when the flow-level interceptors up
    to [i] pass and [i] fails with [e], [Run] returns [e]; the world is the
    one [i] leaves, so that neither the later flow-level interceptors [post]
    nor the head node ran.  This holds with any fuel, 0 included, that is,
    without a single call of a node's [run]. *)
Theorem Run_flow_interceptor_fails fuel h f name hd tl pre i post nics w w1 w2 e :
  h !! f = Some (Flow name (Some hd) tl (pre ++ i :: post) nics) ->
  run_interceptors pre None w = (w1, None) ->
  i None w1 = (w2, Some e) ->
  Run sched fuel h f w = Some (w2, Some e).
Proof.
  intros Hf Hpre Hi. unfold Run. rewrite Hf, run_interceptors_app, Hpre.
  simpl. by rewrite Hi.
Qed.


(** ** Chains of actions *)

Lemma run_do_chain_failure h ics pre lk fk post :
  forall n fuel w0 w1 w2 w3 e,
  do_chain h n (pre ++ (lk, fk) :: post) ->
  exec_actions ics pre w0 = (w1, None) ->
  run_interceptors ics (Some lk) w1 = (w2, None) ->
  fk w2 = (w3, Some e) ->
  length pre < fuel ->
  run_next (run sched fuel h) n ics w0 = Some (w3, Some e).
Proof.
  induction pre as [|[l fn] pre IH]; intros n fuel w0 w1 w2 w3 e Hch Hpre Hic Hk Hfuel.
  - simpl in *. destruct Hch as [-> (nm & nx & Hl & _)]. injection Hpre as ->.
    destruct fuel as [|fuel]; [lia|].
    simpl. rewrite Hl. simpl. unfold doNode_run. by rewrite Hic, Hk.
  - simpl in Hch. destruct Hch as [-> (nm & nx & Hl & Hrest)].
    simpl in Hpre. simpl in Hfuel.
    destruct fuel as [|fuel]; [lia|].
    simpl. rewrite Hl. simpl. unfold doNode_run.
    destruct (run_interceptors ics (Some l) w0) as [wa [ea|]]; [done|].
    destruct (fn wa) as [wb [eb|]]; [done|].
    eapply IH; eauto. lia.
Qed.

(** With fuel for every node, a chain of actions runs as [exec_actions]
    says; in particular its run returns. *)
Lemma run_do_chain h ics acts :
  forall n fuel w,
  do_chain h n acts -> length acts <= fuel ->
  run_next (run sched fuel h) n ics w = Some (exec_actions ics acts w).
Proof.
  induction acts as [|[l fn] acts IH]; intros n fuel w Hch Hfuel.
  - simpl in Hch. by subst n.
  - destruct Hch as [-> (nm & nx & Hl & Hrest)]. simpl in Hfuel.
    destruct fuel as [|fuel]; [lia|].
    simpl. rewrite Hl. simpl. unfold doNode_run.
    destruct (run_interceptors ics (Some l) w) as [w1 [e|]]; [done|].
    destruct (fn w1) as [w2 [e|]]; [done|].
    apply IH; [done|lia].
Qed.

(** C3. In a flow whose chain consists of action nodes, let the actions
    before the k-th be [pre], the k-th be [fk] and the ones after it [post].
    When the interceptors pass, the actions of [pre] succeed and [fk] fails
    with [e], [Run] returns [e] itself.  The world it returns is the one
    obtained by running the actions of [pre] once each, in order, and then
    [fk]: nothing of [post] has run. *)
Theorem action_chain_failure fuel h f name hd tl fics nics pre lk fk post
    w w0 w1 w2 w3 e :
  h !! f = Some (Flow name hd tl fics nics) ->
  do_chain h hd (pre ++ (lk, fk) :: post) ->
  run_interceptors fics None w = (w0, None) ->
  exec_actions nics pre w0 = (w1, None) ->
  run_interceptors nics (Some lk) w1 = (w2, None) ->
  fk w2 = (w3, Some e) ->
  length pre < fuel ->
  Run sched fuel h f w = Some (w3, Some e).
Proof.
  intros Hf Hch Hfl Hpre Hic Hk Hfuel.
  pose proof (run_do_chain_failure _ _ _ _ _ _ _ _ _ _ _ _ _ Hch Hpre Hic Hk Hfuel)
    as Hrun.
  unfold Run. rewrite Hf, Hfl.
  destruct hd as [first|]; [exact Hrun|].
  destruct pre as [|[] ?]; simpl in Hch; destruct Hch as [? _]; done.
Qed.

(** ** Conditional nodes *)

(** C4. For a conditional node whose interceptors pass and whose predicate
    gives [b]: when [b] is true and the branch is not nil, the branch is run
    on the world the predicate leaves; if it fails, its failure is the result
    and [next] is not run (1); if it succeeds, the result is that of [next]
    on the world the branch leaves (2).  When [b] is false or the branch is
    nil, the branch is not run and the result is that of [next] on the world
    the predicate leaves: the node passes through (3). *)
Theorem conditional_run fuel h l name next cond tb ics w w1 w2 b :
  h !! l = Some (conditionalNode name next cond tb) ->
  run_interceptors ics (Some l) w = (w1, None) ->
  cond w1 = (w2, b) ->
  (forall t w3 e, b = true -> tb = Some t ->
     run sched fuel h t ics w2 = Some (w3, Some e) ->
     run sched (S fuel) h l ics w = Some (w3, Some e)) /\
  (forall t w3, b = true -> tb = Some t ->
     run sched fuel h t ics w2 = Some (w3, None) ->
     run sched (S fuel) h l ics w = run_next (run sched fuel h) next ics w3) /\
  (b = false \/ tb = None ->
     run sched (S fuel) h l ics w = run_next (run sched fuel h) next ics w2).
Proof.
  intros Hl Hic Hc. rewrite run_unfold, Hl. simpl.
  unfold conditionalNode_run. rewrite Hic, Hc.
  split; [|split].
  - intros t w3 e -> -> Ht. by rewrite Ht.
  - intros t w3 -> -> Ht. by rewrite Ht.
  - intros [-> | ->]; [done|]. by destruct b.
Qed.

(** ** Sequence and parallel nodes without sub-nodes *)

Lemma filteredNodes_all_nil (args : list Node) :
  Forall (fun a => a = None) args -> filteredNodes args = [].
Proof. induction 1 as [|a args -> _ IH]; [done|]. exact IH. Qed.

Lemma lookup_alloc h (c : cell W) :
  (alloc h c).2 !! (alloc h c).1 = Some c.
Proof.
  unfold alloc. simpl. rewrite lookup_app_r by lia.
  by rewrite Nat.sub_diag.
Qed.

(** When every argument is nil (in particular when there is none),
    [InSequence] and [InParallel] build a node without sub-nodes and without
    successor.  A parallel node without sub-nodes runs its interceptors and
    then, if they pass, is the run of its [next] (success if [next] is nil);
    its caller takes two steps for that, starting nothing and leaving the
    range loop.
    A sequence node without sub-nodes is the run of its [next] and nothing
    else: [sequenceNode.run] does not call the interceptors. *)
Lemma empty_composite_run (args : list Node) :
  Forall (fun a => a = None) args ->
  (forall name h,
     (InSequence name args h).2 !! (InSequence name args h).1
       = Some (sequenceNode name None []) /\
     (InParallel name args h).2 !! (InParallel name args h).1
       = Some (parallelNode name None [])) /\
  (forall fuel h l name next ics w,
     h !! l = Some (sequenceNode name next (filteredNodes args)) ->
     run sched (S fuel) h l ics w = run_next (run sched fuel h) next ics w) /\
  (forall fuel h l name next ics w,
     h !! l = Some (parallelNode name next (filteredNodes args)) ->
     run sched (S (S (S fuel))) h l ics w =
       match run_interceptors ics (Some l) w with
       | (w1, Some e) => Some (w1, Some e)
       | (w1, None) => run_next (run sched (S (S fuel)) h) next ics w1
       end).
Proof.
  intros Hnil. rewrite (filteredNodes_all_nil _ Hnil).
  split; [|split].
  - intros name h. unfold InSequence, InParallel.
    rewrite (filteredNodes_all_nil _ Hnil). split; apply lookup_alloc.
  - intros fuel h l name next ics w Hl. rewrite run_unfold, Hl. reflexivity.
  - intros fuel h l name next ics w Hl. rewrite run_unfold, Hl. simpl.
    unfold parallelNode_run.
    destruct (run_interceptors ics (Some l) w) as [w1 [e|]]; [done|].
    by rewrite machine_no_units.
Qed.

(** ** Chains and their runs *)

Lemma chain_head h n locs : chain h n locs -> n = head locs.
Proof. destruct locs; simpl; [done|]. by intros [-> _]. Qed.

Lemma chain_base h n locs l :
  chain h n locs -> l ∈ locs ->
  exists c next, h !! l = Some c /\ base_next c = Some next.
Proof.
  revert n. induction locs as [|l0 locs IH]; intros n Hch Hin.
  - by apply elem_of_nil in Hin.
  - destruct Hch as [_ (c & nx & Hl & Hb & Hrest)].
    apply elem_of_cons in Hin as [->|Hin]; eauto.
Qed.

Lemma chain_det h n xs :
  forall ys, chain h n xs -> chain h n ys -> xs = ys.
Proof.
  revert n. induction xs as [|x xs IH]; intros n [|y ys] Hx Hy; simpl in *.
  - done.
  - destruct Hy as [-> _]. done.
  - destruct Hx as [-> _]. done.
  - destruct Hx as [-> (c & nx & Hl & Hb & Hx)].
    destruct Hy as [[= <-] (c' & nx' & Hl' & Hb' & Hy)].
    rewrite Hl in Hl'. injection Hl' as <-. rewrite Hb in Hb'. injection Hb' as <-.
    f_equal. eauto.
Qed.

Lemma chain_suffix h n xs l ys :
  chain h n (xs ++ l :: ys) -> chain h (Some l) (l :: ys).
Proof.
  revert n. induction xs as [|x xs IH]; intros n Hch; simpl in *.
  - destruct Hch as [_ Hch]. by split.
  - destruct Hch as [_ (c & nx & _ & _ & Hch)]. eauto.
Qed.

Lemma chain_NoDup h n locs : chain h n locs -> NoDup locs.
Proof.
  revert n. induction locs as [|l locs IH]; intros n Hch; [constructor|].
  pose proof Hch as [-> (c & nx & Hl & Hb & Hrest)].
  constructor; [|eauto].
  intros Hin. apply list_elem_of_split in Hin as (xs & ys & ->).
  pose proof (chain_suffix h nx xs l ys Hrest) as Hsuf.
  pose proof (chain_det _ _ _ _ Hch Hsuf) as Heq.
  apply (f_equal length) in Heq. simpl in Heq. rewrite length_app in Heq.
  simpl in Heq. lia.
Qed.

Lemma chain_insert_other h n locs t (c : cell W) :
  t ∉ locs -> chain h n locs -> chain (<[t := c]> h) n locs.
Proof.
  revert n. induction locs as [|l locs IH]; intros n Hnin Hch; [done|].
  destruct Hch as [-> (c0 & nx & Hl & Hb & Hrest)].
  apply not_elem_of_cons in Hnin as [Hne Hnin].
  split; [done|]. exists c0, nx. split; [|split; [done|eauto]].
  by rewrite list_lookup_insert_ne.
Qed.

Lemma base_next_with_next (c : cell W) next next' :
  base_next c = Some next -> base_next (with_next c next') = Some next'.
Proof. by destruct c. Qed.

Lemma chain_splice h n locs1 t c n2 locs2 :
  chain h n locs1 ->
  last locs1 = Some t ->
  h !! t = Some c ->
  chain (<[t := with_next c n2]> h) n2 locs2 ->
  chain (<[t := with_next c n2]> h) n (locs1 ++ locs2).
Proof.
  intros Hch Hlast Ht H2.
  pose proof (chain_NoDup _ _ _ Hch) as Hnd.
  revert n Hch Hlast Hnd. induction locs1 as [|l locs1 IH]; intros n Hch Hlast Hnd.
  - done.
  - destruct Hch as [-> (c0 & nx & Hl & Hb & Hrest)].
    apply NoDup_cons in Hnd as [Hnin Hnd].
    destruct locs1 as [|l' locs1].
    + simpl in Hlast. injection Hlast as ->. simpl in Hrest. subst nx.
      rewrite Hl in Ht. injection Ht as ->.
      split; [done|]. exists (with_next c n2), n2.
      split; [|split; [by eapply base_next_with_next|done]].
      apply list_lookup_insert_eq. by eapply lookup_lt_Some.
    + assert (l <> t) as Hne.
      { intros ->. apply Hnin. rewrite last_cons_cons in Hlast.
        by apply last_Some_elem_of. }
      split; [done|]. exists c0, nx.
      split; [by rewrite list_lookup_insert_ne|split; [done|]].
      apply IH; [done| |done]. by rewrite last_cons_cons in Hlast.
Qed.

Lemma run_work fuel h l c next ics w :
  h !! l = Some c -> base_next c = Some next ->
  run sched (S fuel) h l ics w =
  match work sched fuel h l ics w with
  | Some (w', None) => run_next (run sched fuel h) next ics w'
  | r => r
  end.
Proof.
  intros Hl Hb. rewrite run_unfold. unfold work. rewrite Hl.
  destruct c as [nm nx fn|nm nx cond tb|nm nx nodes|nm nx nodes|];
    simpl in *; [| | | |done]; injection Hb as ->.
  - unfold doNode_run.
    destruct (run_interceptors ics (Some l) w) as [w1 [e|]]; [done|].
    by destruct (fn w1) as [w2 [e|]].
  - unfold conditionalNode_run.
    destruct (run_interceptors ics (Some l) w) as [w1 [e|]]; [done|].
    destruct (cond w1) as [w2 b].
    destruct (if b then tb else None) as [t|]; [|done].
    by destruct (run sched fuel h t ics w2) as [[w3 [e|]]|].
  - unfold sequenceNode_run.
    by destruct (run_each (run sched fuel h) nodes ics w) as [[w1 [e|]]|].
  - unfold parallelNode_run.
    destruct (run_interceptors ics (Some l) w) as [w1 [e|]]; [done|].
    destruct (machine h (sched l) fuel 0 _ w1) as [[ts w2]|]; [|done].
    by destruct (returned ts 0) as [[e|]|].
Qed.

Lemma work_mono fuel fuel' h l ics w r :
  fuel <= fuel' ->
  work sched fuel h l ics w = Some r -> work sched fuel' h l ics w = Some r.
Proof.
  intros Hle. unfold work. destruct (h !! l) as [c|]; [|done].
  apply dispatch_mono; [|done]. intros ? ? ? ?. by apply run_mono.
Qed.

Lemma run_chain_mono fuel fuel' h ics locs w r :
  fuel <= fuel' ->
  run_chain sched fuel h ics locs w = Some r ->
  run_chain sched fuel' h ics locs w = Some r.
Proof.
  intros Hle. revert w. induction locs as [|l locs IH]; intros w; simpl; [done|].
  destruct (work sched fuel h l ics w) as [[w1 [e|]]|] eqn:E; [| |done].
  - intros [= <-]. by rewrite (work_mono _ _ _ _ _ _ _ Hle E).
  - rewrite (work_mono _ _ _ _ _ _ _ Hle E). apply IH.
Qed.

Lemma run_chain_app fuel h ics locs1 locs2 w :
  run_chain sched fuel h ics (locs1 ++ locs2) w =
  match run_chain sched fuel h ics locs1 w with
  | Some (w', None) => run_chain sched fuel h ics locs2 w'
  | r => r
  end.
Proof.
  revert w. induction locs1 as [|l locs1 IH]; intros w; simpl; [done|].
  by destruct (work sched fuel h l ics w) as [[w1 [e|]]|].
Qed.

(** Runs a chain from its first node is running the work of its nodes
    one after the other. *)
Lemma run_chain_equiv h ics locs :
  forall n w r, chain h n locs ->
  (exists fuel, run_next (run sched fuel h) n ics w = Some r) <->
  (exists fuel, run_chain sched fuel h ics locs w = Some r).
Proof.
  induction locs as [|l locs IH]; intros n w r Hch.
  - simpl in Hch. subst n. simpl. split; intros [_ H]; by exists 0.
  - destruct Hch as [-> (c & nx & Hl & Hb & Hrest)]. simpl. split.
    + intros [[|fuel] Hrun]; [done|].
      rewrite (run_work _ _ _ _ _ _ _ Hl Hb) in Hrun.
      destruct (work sched fuel h l ics w) as [[w1 [e|]]|] eqn:E; [| |done].
      * exists fuel. by rewrite E.
      * destruct (proj1 (IH nx w1 r Hrest)) as [fuel' Hrest']; [by eauto|].
        exists (fuel `max` fuel').
        rewrite (work_mono fuel _ _ _ _ _ _ (Nat.le_max_l _ _) E).
        eapply run_chain_mono; [|done]. apply Nat.le_max_r.
    + intros [fuel Hrun].
      destruct (work sched fuel h l ics w) as [[w1 [e|]]|] eqn:E; [| |done].
      * exists (S fuel). by rewrite (run_work _ _ _ _ _ _ _ Hl Hb), E.
      * destruct (proj2 (IH nx w1 r Hrest)) as [fuel' Hrest']; [by eauto|].
        exists (S (fuel `max` fuel')).
        rewrite (run_work _ _ _ _ _ _ _ Hl Hb).
        rewrite (work_mono fuel _ _ _ _ _ _ (Nat.le_max_l _ _) E).
        eapply run_next_mono; [|done].
        intros ? ? ? ?. apply run_mono, Nat.le_max_r.
Qed.

Lemma Run_chain_equiv h f name hd tl fics nics locs w r :
  h !! f = Some (Flow name hd tl fics nics) ->
  chain h hd locs -> locs <> [] ->
  (exists fuel, Run sched fuel h f w = Some r) <->
  (exists fuel, run_flow_chain sched fuel h fics nics locs w = Some r).
Proof.
  intros Hf Hch Hne. unfold Run, run_flow_chain. rewrite Hf.
  destruct locs as [|first rest]; [done|].
  pose proof Hch as [-> _].
  destruct (run_interceptors fics None w) as [w1 [e|]].
  - split; intros [_ H]; by exists 0.
  - apply (run_chain_equiv h nics (first :: rest) (Some first) w1 r Hch).
Qed.

(** ** Splicing a flow into a flow *)

Lemma setNext_base k h t c next next' :
  h !! t = Some c -> base_next c = Some next ->
  setNext (S k) h t next' = Some (<[t := with_next c next']> h).
Proof. intros Ht Hb. simpl. rewrite Ht. by destruct c. Qed.

Lemma chain_not_flow h n locs f name hd tl fics nics :
  chain h n locs -> h !! f = Some (Flow name hd tl fics nics) -> f ∉ locs.
Proof.
  intros Hch Hf Hin.
  destruct (chain_base _ _ _ _ Hch Hin) as (c & nx & Hc & Hb).
  rewrite Hf in Hc. injection Hc as <-. done.
Qed.

(** C5. Let [flow1] and [flow2] be flows whose chains (the nodes [locs1]
    and [locs2], from [head] through the [next] links to nil, [tail] being the
    last one) have no node in common, [flow2] not being empty.  Then
    [flow1.Then(flow2)] does not panic, and in the store [h'] it leaves:
    [flow1] keeps its name and its two interceptor lists, its tail is the
    tail of [flow2], and its head is its old head, or the head of [flow2] if
    it was empty; the [next] of the old tail of [flow1] is the head of
    [flow2]; the chain of [flow1] is [locs1 ++ locs2], whose length is the sum
    of the two lengths; and [Run] on [flow1] returns exactly what is returned
    by the flow-level interceptors of [flow1] followed by the work of the
    nodes of [locs1], then of [locs2], in this order, all under the node-level
    interceptors of [flow1]. *)
Theorem Then_flow_splices h f1 f2 nm1 hd1 tl1 fi1 ni1 nm2 hd2 tl2 fi2 ni2 locs1 locs2 :
  h !! f1 = Some (Flow nm1 hd1 tl1 fi1 ni1) ->
  h !! f2 = Some (Flow nm2 hd2 tl2 fi2 ni2) ->
  chain h hd1 locs1 -> last locs1 = tl1 ->
  chain h hd2 locs2 -> last locs2 = tl2 ->
  locs2 <> [] ->
  (forall l, l ∈ locs1 -> l ∉ locs2) ->
  exists h',
    Then f1 (Some f2) h = Some h' /\
    h' !! f1 = Some (Flow nm1 (match hd1 with Some _ => hd1 | None => hd2 end)
                          tl2 fi1 ni1) /\
    (forall t, tl1 = Some t ->
       exists c, h' !! t = Some c /\ base_next c = Some hd2) /\
    chain h' (match hd1 with Some _ => hd1 | None => hd2 end) (locs1 ++ locs2) /\
    length (locs1 ++ locs2) = length locs1 + length locs2 /\
    (forall w r,
       (exists fuel, Run sched fuel h' f1 w = Some r) <->
       (exists fuel,
          run_flow_chain sched fuel h' fi1 ni1 (locs1 ++ locs2) w = Some r)).
Proof.
  intros Hf1 Hf2 Hc1 Hl1 Hc2 Hl2 Hne Hdisj.
  assert (f1 < length h) as Hlt1 by (by eapply lookup_lt_Some).
  assert (exists first2, hd2 = Some first2) as [first2 ->].
  { destruct locs2 as [|x xs]; [done|]. destruct Hc2 as [-> _]. eauto. }
  unfold Then, appendFlow. rewrite Hf2, Hf1.
  cut (exists h',
    match hd1 with
    | None => set_head_tail h f1 (Some first2) tl2
    | Some _ =>
        match tl1 with
        | None => None
        | Some t =>
            match setNext (depth h) h t (Some first2) with
            | Some h1 =>
                match h1 !! f2 with
                | Some (Flow _ _ ftail1 _ _) => set_tail h1 f1 ftail1
                | _ => None
                end
            | None => None
            end
        end
    end = Some h' /\
    h' !! f1 = Some (Flow nm1 (match hd1 with Some _ => hd1 | None => Some first2 end)
                          tl2 fi1 ni1) /\
    (forall t, tl1 = Some t ->
       exists c, h' !! t = Some c /\ base_next c = Some (Some first2)) /\
    chain h' (match hd1 with Some _ => hd1 | None => Some first2 end)
      (locs1 ++ locs2)).
  { intros (h' & Hthen & Hf1' & Htl & Hch). exists h'.
    split; [done|]. split; [done|]. split; [done|]. split; [done|].
    split; [apply length_app|].
    intros w r. eapply Run_chain_equiv; [exact Hf1'|exact Hch|].
    destruct locs1; [done|discriminate]. }
  destruct locs1 as [|l1 rest1].
  - (* flow1 is empty *)
    simpl in Hc1, Hl1. subst hd1 tl1.
    exists (<[f1 := Flow nm1 (Some first2) tl2 fi1 ni1]> h).
    unfold set_head_tail. rewrite Hf1.
    split; [done|]. split; [by apply list_lookup_insert_eq|].
    split; [done|]. simpl.
    apply chain_insert_other; [|done]. by eapply chain_not_flow.
  - (* flow1 has the tail t *)
    pose proof Hc1 as [-> _].
    destruct (last (l1 :: rest1)) as [t|] eqn:Hlast;
      [|by rewrite last_None in Hlast].
    subst tl1.
    assert (t ∈ l1 :: rest1) as Hin by (by apply last_Some_elem_of).
    destruct (chain_base _ _ _ _ Hc1 Hin) as (c & nx & Ht & Hb).
    assert (t <> f1) as Hne1.
    { intros ->. by eapply chain_not_flow in Hin. }
    assert (t <> f2) as Hne2.
    { intros ->. by eapply chain_not_flow in Hin. }
    unfold depth. rewrite (setNext_base _ _ _ _ _ _ Ht Hb).
    rewrite list_lookup_insert_ne, Hf2 by done.
    unfold set_tail. rewrite list_lookup_insert_ne, Hf1 by done.
    eexists. split; [done|].
    split.
    { apply list_lookup_insert_eq. by rewrite length_insert. }
    split.
    { intros t' [= <-]. exists (with_next c (Some first2)).
      split; [|by eapply base_next_with_next].
      rewrite list_lookup_insert_ne by done.
      apply list_lookup_insert_eq. by eapply lookup_lt_Some. }
    assert (chain (<[t := with_next c (Some first2)]> h) (Some l1)
              ((l1 :: rest1) ++ locs2)) as Hch.
    { apply chain_splice; [done..|].
      apply chain_insert_other; [by apply Hdisj|done]. }
    apply chain_insert_other; [|done].
    eapply chain_not_flow; [exact Hch|].
    by rewrite list_lookup_insert_ne.
Qed.

End EngineFacts.

(** * Goroutines and [run]

    The five methods are written twice: as [run], and one call at a time for
    the goroutines of a parallel node.  The two agree. *)

Section GoroutineFacts.

Context {W : Type} (sched : loc -> nat -> nat).

Implicit Types (h : list (cell W)) (ts : list (thread W)) (w : W) (a : action)
  (p k : proc W) (ics : list (Interceptor W)) (e : error) (l : loc) (n next : Node).

Lemma alone_refl h p w : alone h p w p w.
Proof. exists 0. intros pick fuel i. by rewrite Nat.add_0_r. Qed.

Lemma alone_trans h p1 w1 p2 w2 p3 w3 :
  alone h p1 w1 p2 w2 -> alone h p2 w2 p3 w3 -> alone h p1 w1 p3 w3.
Proof.
  intros [m1 H1] [m2 H2]. exists (m1 + m2). intros pick fuel i.
  rewrite <- Nat.add_assoc, H1, H2. f_equal. lia.
Qed.

Lemma alone_Act h call w : alone h (Act call) w (call w).2 (call w).1.
Proof.
  exists 1. intros pick fuel i. cbn. rewrite Nat.min_0_r. cbn.
  destruct (call w) as [w1 p1]. simpl. f_equal. lia.
Qed.

Lemma alone_Call h n ics k p w :
  enter h n ics k = Some p -> alone h (Call n ics k) w p w.
Proof.
  intros He. exists 1. intros pick fuel i. cbn. rewrite Nat.min_0_r. cbn.
  rewrite He. f_equal. lia.
Qed.

Lemma alone_Ret h p w r w' (pick : nat -> nat) :
  alone h p w (Ret r) w' ->
  exists m : nat, forall fuel, m <= fuel ->
    machine h pick fuel 0 [Runs p] w = Some ([Runs (Ret r)], w').
Proof.
  intros [m Hm]. exists m. intros fuel Hle.
  replace fuel with (m + (fuel - m)) by lia. rewrite Hm.
  by destruct (fuel - m).
Qed.

(** The interceptor loop of a goroutine by itself. *)
Lemma alone_interceptors h ics n k w :
  alone h (interceptor_steps ics n k) w
        (match (run_interceptors ics n w).2 with
         | Some e => Ret (Some e)
         | None => k
         end)
        (run_interceptors ics n w).1.
Proof.
  revert w. induction ics as [|i ics IH]; intros w; simpl; [apply alone_refl|].
  eapply alone_trans; [apply alone_Act|]. simpl.
  destruct (i n w) as [w1 [e|]] eqn:Hi; simpl; [apply alone_refl|apply IH].
Qed.


Section Store.

Variable h : list (cell W).
Hypothesis h_sequential : sequential h.

(** On a store without parallel nodes, a goroutine that calls a node, and is
    by itself, gets to what [run] returns: with an error it returns the
    error, without one it goes on. *)
Lemma alone_run fuel : forall l ics w w' r k,
  run sched fuel h l ics w = Some (w', r) ->
  alone h (Call (Some l) ics k) w
        (match r with Some e => Ret (Some e) | None => k end) w'.
Proof.
  induction fuel as [|fuel IH]; intros l ics w w' r k; [done|].
  assert (forall next ics w w' r k,
            run_next (run sched fuel h) next ics w = Some (w', r) ->
            alone h (Call next ics k) w
                  (match r with Some e => Ret (Some e) | None => k end) w')
    as Hnext.
  { intros [l'|] ics' wa wb r' k'; simpl; [apply IH|].
    intros [= <- <-]. by apply alone_Call. }
  rewrite run_unfold.
  destruct (h !! l) as [[nm next fn|nm next cond tb|nm next nodes|nm next nodes
                          |nm hd tl fi ni]|] eqn:Hl; [| | | | |done]; simpl.
  - unfold doNode_run. intros Hrun.
    eapply alone_trans; [apply alone_Call; simpl; by rewrite Hl|].
    eapply alone_trans; [apply alone_interceptors|].
    destruct (run_interceptors ics (Some l) w) as [w1 [e|]]; simpl.
    { injection Hrun as <- <-. apply alone_refl. }
    eapply alone_trans; [apply alone_Act|]. simpl.
    destruct (fn w1) as [w2 [e|]]; simpl.
    { injection Hrun as <- <-. apply alone_refl. }
    by apply Hnext.
  - unfold conditionalNode_run. intros Hrun.
    eapply alone_trans; [apply alone_Call; simpl; by rewrite Hl|].
    eapply alone_trans; [apply alone_interceptors|].
    destruct (run_interceptors ics (Some l) w) as [w1 [e|]]; simpl.
    { injection Hrun as <- <-. apply alone_refl. }
    eapply alone_trans; [apply alone_Act|]. simpl.
    destruct (cond w1) as [w2 b]; simpl.
    destruct (if b then tb else None) as [t|].
    + destruct (run sched fuel h t ics w2) as [[w3 [e|]]|] eqn:Ht; [| |done].
      * injection Hrun as <- <-. by apply (IH _ _ _ _ _ _ Ht).
      * eapply alone_trans; [by apply (IH _ _ _ _ _ _ Ht)|]. by apply Hnext.
    + eapply alone_trans; [by apply alone_Call|]. by apply Hnext.
  - unfold sequenceNode_run. intros Hrun.
    eapply alone_trans; [apply alone_Call; simpl; by rewrite Hl|].
    unfold sequenceNode_steps. clear Hl.
    revert w Hrun. induction nodes as [|[t|] nodes IHn]; intros w Hrun; simpl in *.
    + by apply Hnext.
    + destruct (run sched fuel h t ics w) as [[w1 [e|]]|] eqn:Ht; [| |done].
      * injection Hrun as <- <-. by apply (IH _ _ _ _ _ _ Ht).
      * eapply alone_trans; [by apply (IH _ _ _ _ _ _ Ht)|]. by apply IHn.
    + eapply alone_trans; [by apply alone_Call|]. by apply IHn.
  - by destruct (h_sequential l nm next nodes).
  - unfold Flow_run. intros Hrun.
    eapply alone_trans; [apply alone_Call; simpl; by rewrite Hl|].
    unfold Flow_steps. destruct hd as [hd|].
    + eapply alone_trans; [apply alone_interceptors|].
      destruct (run_interceptors fi None w) as [w1 [e|]]; simpl.
      { injection Hrun as <- <-. apply alone_refl. }
      by apply IH.
    + injection Hrun as <- <-. apply alone_refl.
Qed.

(** The steps of a goroutine agree with [run]: on a store without parallel
    nodes, a goroutine that runs the node [l] by itself returns what [run]
    returns and leaves the world [run] leaves, whatever the scheduler is and
    with any fuel from some number of steps on. *)
Lemma goroutine_alone_is_run fuel l ics w w' r pick :
  run sched fuel h l ics w = Some (w', r) ->
  exists m : nat, forall steps, m <= steps ->
    machine h pick steps 0 [Runs (Call (Some l) ics (Ret None))] w
    = Some ([Runs (Ret r)], w').
Proof.
  intros Hrun. apply alone_Ret.
  pose proof (alone_run _ _ _ _ _ _ (Ret None) Hrun) as H.
  by destruct r.
Qed.

End Store.


Lemma may_return_interceptors h ics n k w :
  match run_interceptors ics n w with
  | (_, Some e) => may_return h (interceptor_steps ics n k) (Some e)
  | (_, None) => forall r, may_return h k r ->
                           may_return h (interceptor_steps ics n k) r
  end.
Proof.
  revert w. induction ics as [|i ics IH]; intros w; simpl; [done|].
  destruct (i n w) as [w1 [e|]] eqn:Hi.
  - apply (may_return_Act _ _ w). rewrite Hi. constructor.
  - specialize (IH w1). destruct (run_interceptors ics n w1) as [w2 [e|]].
    + apply (may_return_Act _ _ w). by rewrite Hi.
    + intros r Hr. apply (may_return_Act _ _ w). rewrite Hi. by apply IH.
Qed.

(** What [run] returns is something the goroutine of the node can return. *)
Lemma run_may_return h fuel : forall l ics w w' r k,
  run sched fuel h l ics w = Some (w', r) ->
  match r with
  | Some e => may_return h (Call (Some l) ics k) (Some e)
  | None => forall r', may_return h k r' -> may_return h (Call (Some l) ics k) r'
  end.
Proof.
  induction fuel as [|fuel IH]; intros l ics w w' r k; [done|].
  assert (forall next ics w w' r k,
            run_next (run sched fuel h) next ics w = Some (w', r) ->
            match r with
            | Some e => may_return h (Call next ics k) (Some e)
            | None => forall r', may_return h k r' -> may_return h (Call next ics k) r'
            end) as Hnext.
  { intros [l'|] ics' wa wb r' k'; simpl; [apply IH|].
    intros [= <- <-] r0 Hr0. by eapply may_return_Call. }
  rewrite run_unfold.
  destruct (h !! l) as [[nm next fn|nm next cond tb|nm next nodes|nm next nodes
                          |nm hd tl fi ni]|] eqn:Hl; [| | | | |done]; simpl.
  - unfold doNode_run. intros Hrun.
    pose proof (may_return_interceptors h ics (Some l)
      (Act (fun w => match fn w with
                     | (w', Some e) => (w', Ret (Some e))
                     | (w', None) => (w', Call next ics k)
                     end)) w) as Hic.
    assert (forall r0, may_return h (doNode_steps l next fn ics k) r0 ->
                       may_return h (Call (Some l) ics k) r0) as Hcall.
    { intros r0. apply may_return_Call. simpl. by rewrite Hl. }
    destruct (run_interceptors ics (Some l) w) as [w1 [e|]].
    { injection Hrun as <- <-. by apply Hcall. }
    destruct (fn w1) as [w2 [e|]] eqn:Hfn.
    { injection Hrun as <- <-. apply Hcall, Hic.
      apply (may_return_Act _ _ w1). rewrite Hfn. constructor. }
    apply (Hnext _ _ _ _ _ k) in Hrun. destruct r as [e|].
    + apply Hcall, Hic. apply (may_return_Act _ _ w1). by rewrite Hfn.
    + intros r' Hr'. apply Hcall, Hic. apply (may_return_Act _ _ w1).
      rewrite Hfn. by apply Hrun.
  - unfold conditionalNode_run. intros Hrun.
    pose proof (may_return_interceptors h ics (Some l)
      (Act (fun w => let '(w', b) := cond w in
              (w', Call (if b then tb else None) ics (Call next ics k)))) w) as Hic.
    assert (forall r0, may_return h (conditionalNode_steps l next cond tb ics k) r0 ->
                       may_return h (Call (Some l) ics k) r0) as Hcall.
    { intros r0. apply may_return_Call. simpl. by rewrite Hl. }
    destruct (run_interceptors ics (Some l) w) as [w1 [e|]].
    { injection Hrun as <- <-. by apply Hcall. }
    destruct (cond w1) as [w2 b] eqn:Hc.
    assert (forall r0, may_return h (Call (if b then tb else None) ics
                                          (Call next ics k)) r0 ->
                       may_return h (Call (Some l) ics k) r0) as Hbranch.
    { intros r0 Hr0. apply Hcall, Hic. apply (may_return_Act _ _ w1).
      by rewrite Hc. }
    destruct (if b then tb else None) as [t|].
    + destruct (run sched fuel h t ics w2) as [[w3 [e|]]|] eqn:Ht; [| |done].
      * injection Hrun as <- <-. apply Hbranch.
        apply (IH _ _ _ _ _ (Call next ics k) Ht).
      * pose proof (IH _ _ _ _ _ (Call next ics k) Ht) as Hthen. simpl in Hthen.
        apply (Hnext _ _ _ _ _ k) in Hrun. destruct r as [e|].
        -- by apply Hbranch, Hthen.
        -- intros r' Hr'. by apply Hbranch, Hthen, Hrun.
    + apply (Hnext _ _ _ _ _ k) in Hrun. destruct r as [e|].
      * apply Hbranch. by eapply may_return_Call.
      * intros r' Hr'. apply Hbranch. eapply may_return_Call; [done|].
        by apply Hrun.
  - unfold sequenceNode_run. intros Hrun.
    assert (forall r0, may_return h (sequenceNode_steps next nodes ics k) r0 ->
                       may_return h (Call (Some l) ics k) r0) as Hcall.
    { intros r0. apply may_return_Call. simpl. by rewrite Hl. }
    assert (match r with
            | Some e => may_return h (sequenceNode_steps next nodes ics k) (Some e)
            | None => forall r', may_return h k r' ->
                        may_return h (sequenceNode_steps next nodes ics k) r'
            end) as Hseq.
    { unfold sequenceNode_steps. clear Hl Hcall. revert w Hrun.
      induction nodes as [|[t|] nodes IHn]; intros w Hrun; simpl in *.
      - exact (Hnext _ _ _ _ _ k Hrun).
      - destruct (run sched fuel h t ics w) as [[w1 [e|]]|] eqn:Ht; [| |done].
        + injection Hrun as <- <-. apply (IH _ _ _ _ _ _ Ht).
        + pose proof (IH _ _ _ _ _ (foldr (fun node rest => Call node ics rest)
                                          (Call next ics k) nodes) Ht) as Hthen.
          simpl in Hthen. apply IHn in Hrun. destruct r as [e|].
          * by apply Hthen.
          * intros r' Hr'. by apply Hthen, Hrun.
      - apply IHn in Hrun. destruct r as [e|].
        + by eapply may_return_Call.
        + intros r' Hr'. eapply may_return_Call; [done|]. by apply Hrun. }
    destruct r as [e|]; [by apply Hcall|]. intros r' Hr'. by apply Hcall, Hseq.
  - unfold parallelNode_run. intros Hrun.
    pose proof (may_return_interceptors h ics (Some l)
                  (Fork nodes ics (Call next ics k)) w) as Hic.
    assert (forall r0, may_return h (parallelNode_steps l next nodes ics k) r0 ->
                       may_return h (Call (Some l) ics k) r0) as Hcall.
    { intros r0. apply may_return_Call. simpl. by rewrite Hl. }
    destruct (run_interceptors ics (Some l) w) as [w1 [e|]].
    { injection Hrun as <- <-. by apply Hcall. }
    destruct (machine h (sched l) fuel 0 _ w1) as [[ts w2]|] eqn:Hm; [|done].
    destruct (parallel_section_results _ _ _ _ _ _ _ _ Hm) as [Hcaller _].
    destruct (returned ts 0) as [[e|]|] eqn:H0; [| |done].
    + injection Hrun as <- <-. apply Hcall, Hic.
      pose proof (Hcaller _ eq_refl) as Hfork.
      inversion Hfork as [| | |? ? ? node ? Hnode Hunit|? ? ? ? Hall Hk]; subst.
      * by eapply may_return_Fork_error.
      * by apply may_return_Ret_inv in Hk.
    + pose proof (Hcaller _ eq_refl) as Hfork.
      inversion Hfork as [| | | |? ? ? ? Hall Hk]; subst.
      apply (Hnext _ _ _ _ _ k) in Hrun. destruct r as [e|].
      * apply Hcall, Hic. by apply may_return_Fork_next.
      * intros r' Hr'. apply Hcall, Hic. apply may_return_Fork_next; [done|].
        by apply Hrun.
  - unfold Flow_run. intros Hrun.
    assert (forall r0, may_return h (Flow_steps hd fi ni k) r0 ->
                       may_return h (Call (Some l) ics k) r0) as Hcall.
    { intros r0. apply may_return_Call. simpl. by rewrite Hl. }
    unfold Flow_steps in Hcall. destruct hd as [hd|].
    + pose proof (may_return_interceptors h fi None (Call (Some hd) ni k) w) as Hic.
      destruct (run_interceptors fi None w) as [w1 [e|]].
      { injection Hrun as <- <-. by apply Hcall. }
      pose proof (IH _ _ _ _ _ k Hrun) as Hhd. destruct r as [e|].
      * by apply Hcall, Hic.
      * intros r' Hr'. by apply Hcall, Hic, Hhd.
    + injection Hrun as <- <-. intros r' Hr'. by apply Hcall.
Qed.

End GoroutineFacts.

(** * Parallel nodes *)

Section ParallelRun.

Context {W : Type} (sched : loc -> nat -> nat).

Implicit Types (h : list (cell W)) (l : loc) (next : Node) (w : W)
  (ics : list (Interceptor W)) (ts : list (thread W)) (e : error).


End ParallelRun.

(** ** The coordination of a parallel node *)

Module ParFacts.

Import Par.

Lemma returned_count_insert us i u u' :
  us !! i = Some u ->
  returned_count (<[i := u']> us) + (match pc u with Running => 0 | _ => 1 end)
  = returned_count us + (match pc u' with Running => 0 | _ => 1 end).
Proof.
  revert i. induction us as [|u0 us IH]; intros [|i] Hi; simpl in *; try done.
  - injection Hi as ->. lia.
  - specialize (IH i Hi). lia.
Qed.

Lemma returned_count_running us i o :
  us !! i = Some (Worker Running o) -> returned_count us < length us.
Proof.
  revert i. induction us as [|u0 us IH]; intros [|i] Hi; simpl in *; try done.
  - injection Hi as ->. simpl.
    assert (returned_count us <= length us); [|lia].
    clear. induction us as [|u us IH]; simpl; [lia|]. destruct (pc u); lia.
  - specialize (IH i Hi). destruct (pc u0); lia.
Qed.

Lemma workers_weight_insert us i u u' :
  us !! i = Some u ->
  workers_weight (<[i := u']> us) + pc_weight (pc u)
  = workers_weight us + pc_weight (pc u').
Proof.
  revert i. induction us as [|u0 us IH]; intros [|i] Hi; simpl in *; try done.
  - injection Hi as ->. lia.
  - specialize (IH i Hi). lia.
Qed.

Lemma outcome_insert (us : list worker) i u u' :
  us !! i = Some u -> outcome u' = outcome u ->
  outcome <$> <[i := u']> us = outcome <$> us.
Proof.
  revert i. induction us as [|u0 us IH]; intros [|i] Hi Ho; simpl in *; try done.
  - injection Hi as ->. by rewrite Ho.
  - f_equal. by apply IH.
Qed.

Lemma inv_init outs : inv outs (init outs).
Proof.
  split; simpl; try done.
  - rewrite <- list_fmap_compose. apply list_fmap_id.
  - intros e He. by apply elem_of_nil in He.
  - intros _ i p e Hi Hp. apply list_lookup_fmap_Some in Hi as (o & [= -> _] & _).
    done.
  - lia.
Qed.

Lemma inv_step outs s s' : inv outs s -> step s s' -> inv outs s'.
Proof.
  intros [Houts Hchan Hmain Hpend Hclosed Hnext Hroom Hjoin] Hstep.
  destruct Hstep as [s i Hi|s i e Hi Hcap|s i o Hi|s Hall Hcl|s e rest Hm Hch
                     |s Hm Hch Hcl]; split; simpl in *; try done.
  - (* ok *) by rewrite (outcome_insert _ _ _ _ Hi).
  - intros Hm j p e Hj Hp.
    apply list_lookup_insert_Some in Hj as [(_ & [=] & _)|[_ Hj]]; eauto.
  - intros Hcl. by pose proof (Hclosed Hcl _ _ Hi).
  - pose proof (returned_count_insert _ _ _ (Worker Finished None) Hi) as Hc.
    simpl in Hc. lia.
  - intros Hm. by pose proof (Hjoin Hm _ _ Hi).
  - (* send *) by rewrite (outcome_insert _ _ _ _ Hi).
  - intros e' He'. apply elem_of_app in He' as [He'|He']; [eauto|].
    apply list_elem_of_singleton in He' as ->. rewrite <- Houts.
    apply list_elem_of_fmap. exists (Worker Running (Some e)).
    split; [done|]. by eapply list_elem_of_lookup_2.
  - intros Hm j p e' Hj Hp. apply elem_of_app.
    apply list_lookup_insert_Some in Hj as [(_ & [= _ <-] & _)|[_ Hj]].
    + right. by apply list_elem_of_singleton.
    + left. eauto.
  - intros Hcl. by pose proof (Hclosed Hcl _ _ Hi).
  - pose proof (returned_count_insert _ _ _ (Worker Sent (Some e)) Hi) as Hc.
    simpl in Hc. rewrite length_app. simpl. lia.
  - intros Hm. by pose proof (Hjoin Hm _ _ Hi).
  - (* done *) by rewrite (outcome_insert _ _ _ _ Hi).
  - intros Hm j p e Hj Hp.
    apply list_lookup_insert_Some in Hj as [(-> & [= _ ->] & _)|[_ Hj]]; [|eauto].
    by eapply Hpend.
  - intros Hcl j u Hj.
    apply list_lookup_insert_Some in Hj as [(_ & <- & _)|[_ Hj]]; [done|eauto].
  - pose proof (returned_count_insert _ _ _ (Worker Finished o) Hi) as Hc.
    simpl in Hc. lia.
  - intros Hm. by pose proof (Hjoin Hm _ _ Hi).
  - (* close *) intros _ i u Hi. by eapply Forall_lookup_1 in Hall.
  - (* recv *) intros e' He'. apply Hchan. rewrite Hch. by right.
  - intros e' [= <-]. apply Hchan. rewrite Hch. by left.
  - rewrite Hch in Hroom. simpl in Hroom. lia.
  - (* end *) intros _ o Ho. destruct o as [e|]; [|done].
    rewrite <- Houts in Ho. apply list_elem_of_fmap in Ho as ([p o] & Ho & Hu).
    simpl in Ho. subst o. apply list_elem_of_lookup in Hu as [i Hi].
    assert (e ∈ errChan s) as He.
    { eapply (Hpend Hm i p); [done|].
      pose proof (Hclosed Hcl _ _ Hi) as Hp. simpl in Hp. by subst p. }
    rewrite Hch in He. by apply elem_of_nil in He.
  - intros _. by apply Hclosed.
Qed.

Lemma inv_reachable outs s : reachable outs s -> inv outs s.
Proof.
  unfold reachable. intros Hr. revert s Hr. apply rtc_ind_r; [apply inv_init|].
  intros s0 s1 _ Hstep IH. by eapply inv_step.
Qed.

Lemma step_measure s s' : step s s' -> measure s' < measure s.
Proof.
  unfold measure.
  intros [s0 i Hi|s0 i e Hi Hcap|s0 i o Hi|s0 Hall Hcl|s0 e rest Hm Hch
          |s0 Hm Hch Hcl]; simpl.
  - pose proof (workers_weight_insert _ _ _ (Worker Finished None) Hi) as Hw.
    simpl in Hw. lia.
  - pose proof (workers_weight_insert _ _ _ (Worker Sent (Some e)) Hi) as Hw.
    simpl in Hw. lia.
  - pose proof (workers_weight_insert _ _ _ (Worker Finished o) Hi) as Hw.
    simpl in Hw. lia.
  - rewrite Hcl. lia.
  - rewrite Hm. lia.
  - rewrite Hm. lia.
Qed.

Lemma finished_or_not (us : list worker) :
  Forall (fun u => pc u = Finished) us \/
  exists i u, us !! i = Some u /\ pc u <> Finished.
Proof.
  induction us as [|u us [IH|(i & u' & Hi & Hp)]].
  - by left.
  - destruct (pc u) eqn:Hu.
    + right. exists 0, u. split; [done|]. by rewrite Hu.
    + right. exists 0, u. split; [done|]. by rewrite Hu.
    + left. by constructor.
  - right. by exists (S i), u'.
Qed.

(** A state in which no thread can move: every goroutine is done, the
    channel is closed and the caller has left the range loop. *)
Lemma quiescent outs s :
  inv outs s -> (forall s', ~ step s s') ->
  Forall (fun u => pc u = Finished) (workers s) /\ closed s = true /\
  main s <> Ranging.
Proof.
  intros Hinv Hstuck.
  assert (Forall (fun u => pc u = Finished) (workers s)) as Hall.
  { destruct (finished_or_not (workers s)) as [|(i & [p o] & Hi & Hp)]; [done|].
    exfalso. simpl in Hp. destruct p; [|by eapply Hstuck, step_done|done].
    destruct o as [e|]; [|by eapply Hstuck, step_ok].
    eapply Hstuck, step_send; [done|].
    pose proof (inv_room _ _ Hinv). pose proof (returned_count_running _ _ _ Hi).
    lia. }
  assert (closed s = true) as Hcl.
  { destruct (closed s) eqn:Hcl; [done|]. exfalso.
    by eapply Hstuck, step_close. }
  split; [done|]. split; [done|]. intros Hm.
  destruct (errChan s) as [|e rest] eqn:Hch.
  - by eapply Hstuck, step_end.
  - by eapply Hstuck, step_recv.
Qed.

(** When [run] goes on to [next], every goroutine is done: without a
    failure the range loop ends only when the channel is closed. *)
Lemma next_after_all_units outs s :
  reachable outs s -> main s = AtNext ->
  Forall (fun u => pc u = Finished) (workers s).
Proof.
  intros Hr Hm. apply Forall_lookup_2. intros i u.
  exact (inv_joined _ _ (inv_reachable _ _ Hr) Hm i u).
Qed.

(** In every state the coordination can reach for the sub-node results
    [outs]: if [run] has returned from the range loop it has returned one
    error, and this error is the result of one of the sub-nodes (1); if it
    has gone on to [next], no sub-node failed (2); every transition lowers
    [measure], so that the threads come to rest (3); and when they are at
    rest, [run] has either gone on to [next], no sub-node having failed, or
    has returned the error of one of the failed sub-nodes (4). *)
Theorem parallel_reports_one_failure outs s :
  reachable outs s ->
  (forall e, main s = Returned e -> Some e ∈ outs) /\
  (main s = AtNext -> forall o, o ∈ outs -> o = None) /\
  (forall s', step s s' -> measure s' < measure s) /\
  ((forall s', ~ step s s') ->
     (main s = AtNext /\ forall o, o ∈ outs -> o = None) \/
     (exists e, main s = Returned e /\ Some e ∈ outs)).
Proof.
  intros Hr. pose proof (inv_reachable _ _ Hr) as Hinv.
  split; [exact (inv_main _ _ Hinv)|]. split; [exact (inv_next _ _ Hinv)|].
  split; [apply step_measure|].
  intros Hstuck. destruct (quiescent _ _ Hinv Hstuck) as (_ & _ & Hm).
  destruct (main s) as [|e|] eqn:Hmain; [done| |].
  - right. exists e. split; [done|]. by apply (inv_main _ _ Hinv).
  - left. split; [done|]. by apply (inv_next _ _ Hinv).
Qed.

(** Which failure is reported is up to the scheduler: the error of any
    failed sub-node can be the one that is returned. *)
Lemma any_failure_can_be_reported outs e :
  Some e ∈ outs -> exists s, reachable outs s /\ main s = Returned e.
Proof.
  intros Hin. apply list_elem_of_lookup in Hin as [i Hi].
  eexists. split.
  - eapply rtc_l.
    { apply (step_send (init outs) i e).
      - by apply (list_lookup_fmap_Some_2 (Worker Running)).
      - change (0 < length (Worker Running <$> outs)).
        rewrite length_fmap. apply Nat.le_lt_trans with i; [lia|].
        by eapply lookup_lt_Some. }
    eapply rtc_l; [|apply rtc_refl].
    by apply (step_recv _ e []).
  - reflexivity.
Qed.

(** C1. With two sub-nodes of which the first fails and the second is
    still running, [run] can already have returned: the range loop returns
    the first error it receives, and does not wait for the WaitGroup. *)
Theorem parallel_returns_before_all_units_finish :
  exists s,
    reachable [Some "A failed"; None] s /\
    main s = Returned "A failed" /\
    workers s !! 1 = Some (Worker Running None).
Proof.
  eexists. split; [|split].
  - eapply rtc_l.
    { apply (step_send _ 0 "A failed"); simpl; [reflexivity|lia]. }
    eapply rtc_l; [|apply rtc_refl].
    by apply (step_recv _ "A failed" []).
  - reflexivity.
  - reflexivity.
Qed.

End ParFacts.

(** * Worked instances *)

Section Instances.

Import Demo Scenes.

(** C7. The flow [sequence_flow] has the node-level interceptor [tracer]
    and its head is the sequence node at 2, which holds the action at 1.
    [Run] succeeds, and the journal shows that the interceptor was fired for
    the action node and never for the sequence node, although [Run] went
    through both. *)
Theorem sequence_node_not_intercepted :
  sequence_flow !! 0 = Some (Flow "f" (Some 2) (Some 2) [] [tracer]) /\
  sequence_flow !! 2 = Some (sequenceNode "s" None [Some 1]) /\
  Run in_order 2 sequence_flow 0 [] = Some ([Fired (Some 1); Acted "a"], None) /\
  Fired (Some 2) ∉ [Fired (Some 1); Acted "a"].
Proof.
  split; [reflexivity|]. split; [reflexivity|]. split; [reflexivity|].
  intros Hin. apply elem_of_cons in Hin as [[=]|Hin].
  apply elem_of_cons in Hin as [[=]|Hin]. by apply elem_of_nil in Hin.
Qed.

Lemma Run_empty_flow_witness :
  empty_flow !! 0 = Some (Flow "f" None None [veto "denied"] [veto "denied"]) /\
  Run in_order 0 empty_flow 0 [] = Some ([], None).
Proof.
  assert (empty_flow !! 0
          = Some (Flow "f" None None [veto "denied"] [veto "denied"])) as H
    by reflexivity.
  split; [exact H|]. exact (Run_empty_flow in_order 0 _ _ _ _ _ _ [] H).
Defined.

Lemma Run_flow_interceptor_fails_witness :
  vetoed_flow !! 0
    = Some (Flow "f" (Some 1) (Some 1) ([tracer] ++ veto "denied" :: [tracer]) []) /\
  run_interceptors [tracer] None [] = ([Fired None], None) /\
  veto "denied" None [Fired None] = ([Fired None; Fired None], Some "denied") /\
  Run in_order 0 vetoed_flow 0 [] = Some ([Fired None; Fired None], Some "denied").
Proof.
  assert (vetoed_flow !! 0
          = Some (Flow "f" (Some 1) (Some 1)
                    ([tracer] ++ veto "denied" :: [tracer]) [])) as H1
    by reflexivity.
  assert (run_interceptors [tracer] None [] = ([Fired None], None)) as H2
    by reflexivity.
  assert (veto "denied" None [Fired None]
          = ([Fired None; Fired None], Some "denied")) as H3 by reflexivity.
  split; [exact H1|]. split; [exact H2|]. split; [exact H3|].
  exact (Run_flow_interceptor_fails in_order 0 _ _ _ _ _ _ _ _ _ _ _ _ _ H1 H2 H3).
Defined.


Lemma action_chain_failure_witness :
  three_actions !! 0 = Some (Flow "f" (Some 1) (Some 3) [] [tracer]) /\
  do_chain three_actions (Some 1)
    ([(1, act "a1")] ++ (2, failing "a2" "boom") :: [(3, act "a3")]) /\
  exec_actions [tracer] [(1, act "a1")] [] = ([Fired (Some 1); Acted "a1"], None) /\
  1 < 2 /\
  Run in_order 2 three_actions 0 []
  = Some ([Fired (Some 1); Acted "a1"; Fired (Some 2); Acted "a2"], Some "boom").
Proof.
  assert (three_actions !! 0 = Some (Flow "f" (Some 1) (Some 3) [] [tracer]))
    as H1 by reflexivity.
  assert (do_chain three_actions (Some 1)
            ([(1, act "a1")] ++ (2, failing "a2" "boom") :: [(3, act "a3")]))
    as H2.
  { simpl. split; [reflexivity|]. exists "a1", (Some 2). split; [reflexivity|].
    split; [reflexivity|]. exists "a2", (Some 3). split; [reflexivity|].
    split; [reflexivity|]. exists "a3", None. split; reflexivity. }
  assert (exec_actions [tracer] [(1, act "a1")] []
          = ([Fired (Some 1); Acted "a1"], None)) as H4 by reflexivity.
  assert (1 < 2) as H7 by lia.
  split; [exact H1|]. split; [exact H2|]. split; [exact H4|]. split; [exact H7|].
  exact (action_chain_failure in_order 2 _ 0 _ _ _ _ _ _ _ _ _ [] [] _ _ _ "boom"
           H1 H2 eq_refl H4 eq_refl eq_refl H7).
Defined.

Lemma conditional_run_witness :
  conditional_flow false !! 2
    = Some (conditionalNode "c" (Some 3) (always false) (Some 1)) /\
  run_interceptors [] (Some 2) ([] : journal) = ([], None) /\
  always false [] = ([], false) /\
  run in_order 2 (conditional_flow false) 2 [] []
  = run_next (run in_order 1 (conditional_flow false)) (Some 3) [] [] /\
  run in_order 2 (conditional_flow false) 2 [] [] = Some ([Acted "y"], None).
Proof.
  assert (conditional_flow false !! 2
          = Some (conditionalNode "c" (Some 3) (always false) (Some 1))) as H1
    by reflexivity.
  assert (run_interceptors [] (Some 2) ([] : journal) = ([], None)) as H2
    by reflexivity.
  assert (always false [] = ([], false)) as H3 by reflexivity.
  split; [exact H1|]. split; [exact H2|]. split; [exact H3|].
  split; [|reflexivity].
  exact (proj2 (proj2 (conditional_run in_order 1 _ _ _ _ _ _ _ _ _ _ _ H1 H2 H3))
           (or_introl eq_refl)).
Defined.

(** C10. [InSequence] with arguments that are all nil builds a sequence
    node without sub-nodes.  Run under a node-level interceptor that fails,
    it returns success and leaves the journal empty: the interceptor was not
    called.  The parallel node built from the same arguments calls it, and
    returns its error. *)
Theorem empty_sequence_skips_interceptors :
  (InSequence "s" [None; None] ([] : list (cell journal))).2 !! 0
    = Some (sequenceNode "s" None []) /\
  run in_order 1 (InSequence "s" [None; None] []).2 0 [veto "denied"] []
    = Some ([], None) /\
  (InParallel "p" [None; None] ([] : list (cell journal))).2 !! 0
    = Some (parallelNode "p" None []) /\
  run in_order 1 (InParallel "p" [None; None] []).2 0 [veto "denied"] []
    = Some ([Fired (Some 0)], Some "denied").
Proof. repeat split. Qed.

Lemma Then_flow_splices_witness :
  two_flows !! 0 = Some (Flow "f1" (Some 1) (Some 2) [] [tracer]) /\
  two_flows !! 3 = Some (Flow "f2" (Some 4) (Some 5) [veto "unused"] []) /\
  chain two_flows (Some 1) [1; 2] /\
  chain two_flows (Some 4) [4; 5] /\
  exists h',
    Then 0 (Some 3) two_flows = Some h' /\
    h' !! 0 = Some (Flow "f1" (Some 1) (Some 5) [] [tracer]) /\
    chain h' (Some 1) [1; 2; 4; 5] /\
    (forall w r,
       (exists fuel, Run in_order fuel h' 0 w = Some r) <->
       (exists fuel,
          run_flow_chain in_order fuel h' [] [tracer] [1; 2; 4; 5] w = Some r)).
Proof.
  assert (two_flows !! 0 = Some (Flow "f1" (Some 1) (Some 2) [] [tracer]))
    as H1 by reflexivity.
  assert (two_flows !! 3 = Some (Flow "f2" (Some 4) (Some 5) [veto "unused"] []))
    as H2 by reflexivity.
  assert (chain two_flows (Some 1) [1; 2]) as H3.
  { simpl. split; [reflexivity|]. eexists _, _. split; [reflexivity|].
    split; [reflexivity|]. split; [reflexivity|]. eexists _, _.
    split; [reflexivity|]. split; reflexivity. }
  assert (chain two_flows (Some 4) [4; 5]) as H4.
  { simpl. split; [reflexivity|]. eexists _, _. split; [reflexivity|].
    split; [reflexivity|]. split; [reflexivity|]. eexists _, _.
    split; [reflexivity|]. split; reflexivity. }
  assert (forall l : loc, l ∈ [1; 2] -> l ∉ [4; 5]) as H5.
  { intros l Hl Hl'. rewrite !elem_of_cons, elem_of_nil in Hl, Hl'. lia. }
  split; [exact H1|]. split; [exact H2|]. split; [exact H3|]. split; [exact H4|].
  destruct (Then_flow_splices in_order _ _ _ _ _ _ _ _ _ _ _ _ _ _ _
              H1 H2 H3 eq_refl H4 eq_refl ltac:(discriminate) H5)
    as (h' & Hthen & Hf & _ & Hch & _ & Hrun).
  exists h'. split; [exact Hthen|]. split; [exact Hf|]. split; [exact Hch|].
  exact Hrun.
Defined.


Lemma parallel_reports_one_failure_witness :
  Par.reachable [Some "A failed"; Some "B failed"]
    (Par.State [Par.Worker Par.Running (Some "A failed");
                Par.Worker Par.Sent (Some "B failed")]
               [] false (Par.Returned "B failed")) /\
  Some "B failed" ∈ [Some "A failed"; Some "B failed"].
Proof.
  assert (Par.reachable [Some "A failed"; Some "B failed"]
            (Par.State [Par.Worker Par.Running (Some "A failed");
                        Par.Worker Par.Sent (Some "B failed")]
                       [] false (Par.Returned "B failed"))) as H.
  { apply (rtc_l _ _ (Par.State [Par.Worker Par.Running (Some "A failed");
                                  Par.Worker Par.Sent (Some "B failed")]
                                 ["B failed"] false Par.Ranging)).
    { refine (Par.step_send (Par.init [Some "A failed"; Some "B failed"])
                1 "B failed" eq_refl _). simpl. lia. }
    eapply rtc_l; [|apply rtc_refl].
    exact (Par.step_recv (Par.State _ _ _ _) "B failed" [] eq_refl eq_refl). }
  split; [exact H|].
  exact (proj1 (ParFacts.parallel_reports_one_failure _ _ H) "B failed" eq_refl).
Defined.

(** ** The scenarios of the specification (section 8) *)

(** [If("c", pred=false, branch=X)] followed by [Do("y", ..)]: nothing of X,
    then Y; with a true predicate, X and then Y. *)
Example conditional_false_skips_branch :
  Run in_order 2 (conditional_flow false) 0 [] = Some ([Acted "y"], None).
Proof. reflexivity. Qed.

Example conditional_true_runs_branch_then_next :
  Run in_order 2 (conditional_flow true) 0 [] = Some ([Acted "x"; Acted "y"], None).
Proof. reflexivity. Qed.

(** [InParallel("p", A, B)] where both fail: the error is A's or B's,
    depending on the scheduler; both have run. *)
Example parallel_reports_first_to_complete :
  Run in_order 9 two_failures 0 [] = Some ([Acted "A"; Acted "B"], Some "A failed") /\
  Run in_reverse 9 two_failures 0 [] = Some ([Acted "B"; Acted "A"], Some "B failed").
Proof. split; reflexivity. Qed.

(** [InParallel("p", A, B)] where A fails and B does not: the error is A's,
    what B does is in the world, whether B runs before A or after it, and the
    action after the parallel node is not run. *)
Example parallel_failure_keeps_other_effects :
  Run in_order 10 one_failure 0 []
    = Some ([Acted "A"; Acted "B"], Some "A failed") /\
  Run in_reverse 10 one_failure 0 []
    = Some ([Acted "B"; Acted "A"], Some "A failed").
Proof. split; reflexivity. Qed.

(** The caller of the parallel node has returned the error of A when the
    goroutine of B has not yet entered B: the goroutines are started, the
    goroutine of A enters A and calls its function, the range loop receives. *)
Example caller_returns_while_unit_runs :
  (Some ([Runs (Fork [Some 1; Some 2] [] (Ret None))], [])
     >>= (fun s => fire one_failure (Advance 0) s.1 s.2)
     >>= (fun s => fire one_failure (Advance 1) s.1 s.2)
     >>= (fun s => fire one_failure (Advance 1) s.1 s.2)
     >>= (fun s => fire one_failure (Receive 0 1) s.1 s.2))
  = Some ([Runs (Ret (Some "A failed")); Runs (Ret (Some "A failed"));
           Runs (Call (Some 2) [] (Ret None))],
          [Acted "A"]).
Proof. reflexivity. Qed.

(** Two flows of two actions each as the sub-nodes of a parallel node: their
    actions interleave as the scheduler has it, and the action after the
    parallel node comes after all of them. *)
Example parallel_units_interleave :
  Run in_order 15 two_units 6 []
    = Some ([Acted "a1"; Acted "a2"; Acted "b1"; Acted "b2"; Acted "y"], None) /\
  Run taking_turns 16 two_units 6 []
    = Some ([Acted "b1"; Acted "a1"; Acted "b2"; Acted "a2"; Acted "y"], None).
Proof. split; reflexivity. Qed.

(** [f1.Then(f2)] and then [f1.Run]: the four actions in order, each under
    the node-level interceptor of [f1]; the flow-level interceptor of [f2] is
    not run. *)
Example spliced_flow_runs_in_order :
  (Then 0 (Some 3) two_flows >>= fun h' => Run in_order 4 h' 0 [])
  = Some ([Fired (Some 1); Acted "a"; Fired (Some 2); Acted "b";
           Fired (Some 4); Acted "c"; Fired (Some 5); Acted "d"], None).
Proof. reflexivity. Qed.

(** The two flows of [Then_flow_splices] must not share nodes: [f.Then(f)] on
    a flow with one action makes the action its own successor, and the chain
    from the head no longer ends. *)
Example Then_self_makes_cycle :
  exists h',
    Then 0 (Some 0) one_action = Some h' /\
    h' !! 0 = Some (Flow "f" (Some 1) (Some 1) [] []) /\
    h' !! 1 = Some (doNode "a" (Some 1) (act "a")) /\
    forall locs, ~ chain h' (Some 1) locs.
Proof.
  eexists. split; [reflexivity|]. split; [reflexivity|]. split; [reflexivity|].
  intros locs Hch. pose proof (chain_NoDup _ _ _ Hch) as Hnd.
  destruct locs as [|l [|l' locs]]; simpl in Hch.
  - done.
  - destruct Hch as [[= <-] (c & nx & Hc & Hb & Hnx)].
    injection Hc as <-. simpl in Hb. congruence.
  - destruct Hch as [[= <-] (c & nx & Hc & Hb & [-> _])].
    injection Hc as <-. injection Hb as <-.
    apply NoDup_cons in Hnd as [Hnin _]. apply Hnin. left.
Qed.

End Instances.

(** * The builder keeps flows in shape *)

Section BuilderFacts.

Context {W : Type} (sched : loc -> nat -> nat).

Implicit Types (h : list (cell W)) (l f : loc) (n next : Node) (w : W)
  (ics fics nics : list (Interceptor W)) (c : cell W).

Lemma chain_alloc h n locs c : chain h n locs -> chain (h ++ [c]) n locs.
Proof.
  revert n. induction locs as [|l locs IH]; intros n Hch; [done|].
  destruct Hch as [-> (c0 & nx & Hl & Hb & Hrest)].
  split; [done|]. exists c0, nx. split; [|split; [done|eauto]].
  by apply lookup_app_l_Some.
Qed.

Lemma chain_bound h n locs l : chain h n locs -> l ∈ locs -> l < length h.
Proof.
  intros Hch Hin. destruct (chain_base _ _ _ _ Hch Hin) as (c & nx & Hc & _).
  by eapply lookup_lt_Some.
Qed.

Lemma wf_flow_alloc h f name fics nics locs c :
  wf_flow h f name fics nics locs -> wf_flow (h ++ [c]) f name fics nics locs.
Proof.
  intros [Hf Hch]. split; [by apply lookup_app_l_Some|by apply chain_alloc].
Qed.

(** [appendNode] with a node that stands alone and is not yet in the chain
    puts it at the end of the chain; only the flow and its old tail change. *)
Lemma appendNode_fresh h f name fics nics locs l c :
  wf_flow h f name fics nics locs ->
  h !! l = Some c -> base_next c = Some None -> l ∉ locs ->
  exists h',
    appendNode f (Some l) h = Some h' /\
    wf_flow h' f name fics nics (locs ++ [l]) /\
    length h' = length h /\
    (forall l', l' <> f -> Some l' <> last locs -> h' !! l' = h !! l') /\
    (forall t ct, last locs = Some t -> h !! t = Some ct ->
       h' !! t = Some (with_next ct (Some l))).
Proof.
  intros [Hf Hch] Hl Hb Hnin.
  assert (l <> f) as Hlf.
  { intros ->. rewrite Hf in Hl. injection Hl as <-. done. }
  assert (f < length h) as Hflt by (by eapply lookup_lt_Some).
  unfold appendNode. rewrite Hf.
  destruct locs as [|l0 rest].
  - simpl. unfold set_head_tail. rewrite Hf. eexists. split; [done|].
    split; [|split; [by rewrite length_insert|split]].
    + split; [by apply list_lookup_insert_eq|]. simpl. split; [done|].
      exists c, None. by rewrite list_lookup_insert_ne.
    + intros l' Hne _. by rewrite list_lookup_insert_ne.
    + intros t ct [=].
  - destruct (last (l0 :: rest)) as [t|] eqn:Hlast;
      [|by rewrite last_None in Hlast].
    assert (t ∈ l0 :: rest) as Hin by (by apply last_Some_elem_of).
    destruct (chain_base _ _ _ _ Hch Hin) as (ct & nx & Ht & Hbt).
    assert (t <> f) as Htf.
    { intros ->. rewrite Hf in Ht. injection Ht as <-. done. }
    assert (t <> l) as Htl by (intros ->; done).
    cbn [head]. unfold depth. rewrite (setNext_base _ _ _ _ _ _ Ht Hbt).
    unfold set_tail. rewrite list_lookup_insert_ne, Hf by done.
    eexists. split; [done|].
    assert (chain (<[t := with_next ct (Some l)]> h) (Some l0)
              ((l0 :: rest) ++ [l])) as Hch'.
    { apply chain_splice; [done..|]. simpl. split; [done|].
      exists c, None. by rewrite list_lookup_insert_ne. }
    split; [|split; [by rewrite !length_insert|split]].
    + split.
      * rewrite last_snoc. apply list_lookup_insert_eq.
        by rewrite length_insert.
      * apply chain_insert_other; [|done].
        eapply chain_not_flow; [exact Hch'|].
        by rewrite list_lookup_insert_ne.
    + intros l' Hne Hne'. rewrite !list_lookup_insert_ne; [done|congruence|done].
    + intros t' ct' [= <-] Ht'. rewrite Ht in Ht'. injection Ht' as <-.
      rewrite list_lookup_insert_ne by done.
      apply list_lookup_insert_eq. by eapply lookup_lt_Some.
Qed.

Lemma alloc_fresh h f name fics nics locs :
  wf_flow h f name fics nics locs -> length h ∉ locs.
Proof.
  intros [_ Hch] Hin. pose proof (chain_bound _ _ _ _ Hch Hin). lia.
Qed.

Lemma Flow_Do_shape h f name fics nics locs nm fn :
  wf_flow h f name fics nics locs ->
  exists h',
    Flow_Do f nm fn h = Some h' /\
    wf_flow h' f name fics nics (locs ++ [length h]) /\
    h' !! length h = Some (doNode nm None fn) /\
    length h' = S (length h) /\
    (forall l', l' < length h -> l' <> f -> Some l' <> last locs ->
       h' !! l' = h !! l') /\
    (forall t ct, last locs = Some t -> h !! t = Some ct ->
       h' !! t = Some (with_next ct (Some (length h)))).
Proof.
  intros Hwf. unfold Flow_Do, alloc.
  pose proof (wf_flow_alloc _ _ _ _ _ _ (doNode nm None fn) Hwf) as Hwf1.
  assert ((h ++ [doNode nm None fn]) !! length h = Some (doNode nm None fn))
    as Hnew.
  { rewrite lookup_app_r by lia. by rewrite Nat.sub_diag. }
  destruct (appendNode_fresh _ _ _ _ _ _ _ _ Hwf1 Hnew eq_refl
              (alloc_fresh _ _ _ _ _ _ Hwf))
    as (h' & Happ & Hwf' & Hlen & Hframe & Htail).
  assert (length h <> f) as Hnf.
  { destruct Hwf as [Hf _]. apply lookup_lt_Some in Hf. lia. }
  assert (Some (length h) <> last locs) as Hnl.
  { intros Hl. symmetry in Hl. apply last_Some_elem_of in Hl.
    exact (alloc_fresh _ _ _ _ _ _ Hwf Hl). }
  exists h'. split; [done|]. split; [done|]. split; [|split; [|split]].
  - by rewrite Hframe.
  - rewrite Hlen, length_app. simpl. lia.
  - intros l' Hlt Hne Hne'. rewrite Hframe by done. by apply lookup_app_l.
  - intros t ct Hlast Ht. apply Htail; [done|]. by apply lookup_app_l_Some.
Qed.

(** X1. [f.Do(name, fn)] on a flow in shape does not panic and keeps the
    flow in shape: the new action node, alone at the fresh pointer, becomes
    the last node of the chain; the interceptor lists stay; the only cells
    that change are the flow and its old tail, whose [next] now is the new
    node. *)
Theorem Flow_Do_appends h f name fics nics locs nm fn :
  wf_flow h f name fics nics locs ->
  exists h',
    Flow_Do f nm fn h = Some h' /\
    wf_flow h' f name fics nics (locs ++ [length h]) /\
    h' !! length h = Some (doNode nm None fn) /\
    length h' = S (length h) /\
    (forall l', l' < length h -> l' <> f -> Some l' <> last locs ->
       h' !! l' = h !! l') /\
    (forall t ct, last locs = Some t -> h !! t = Some ct ->
       h' !! t = Some (with_next ct (Some (length h)))).
Proof. apply Flow_Do_shape. Qed.

(** X2. [f.If(name, cond, branch)] likewise puts a new conditional node,
    holding [cond] and [branch], at the end of the chain of a flow in shape. *)
Theorem Flow_If_appends h f name fics nics locs nm cond tb :
  wf_flow h f name fics nics locs ->
  exists h',
    Flow_If f nm cond tb h = Some h' /\
    wf_flow h' f name fics nics (locs ++ [length h]) /\
    h' !! length h = Some (conditionalNode nm None cond tb) /\
    length h' = S (length h) /\
    (forall l', l' < length h -> l' <> f -> Some l' <> last locs ->
       h' !! l' = h !! l').
Proof.
  intros Hwf. unfold Flow_If, alloc.
  pose proof (wf_flow_alloc _ _ _ _ _ _ (conditionalNode nm None cond tb) Hwf)
    as Hwf1.
  assert ((h ++ [conditionalNode nm None cond tb]) !! length h
          = Some (conditionalNode nm None cond tb)) as Hnew.
  { rewrite lookup_app_r by lia. by rewrite Nat.sub_diag. }
  destruct (appendNode_fresh _ _ _ _ _ _ _ _ Hwf1 Hnew eq_refl
              (alloc_fresh _ _ _ _ _ _ Hwf))
    as (h' & Happ & Hwf' & Hlen & Hframe & _).
  assert (length h <> f) as Hnf.
  { destruct Hwf as [Hf _]. apply lookup_lt_Some in Hf. lia. }
  assert (Some (length h) <> last locs) as Hnl.
  { intros Hl. symmetry in Hl. apply last_Some_elem_of in Hl.
    exact (alloc_fresh _ _ _ _ _ _ Hwf Hl). }
  exists h'. split; [done|]. split; [done|]. split; [|split].
  - by rewrite Hframe.
  - rewrite Hlen, length_app. simpl. lia.
  - intros l' Hlt Hne Hne'. rewrite Hframe by done. by apply lookup_app_l.
Qed.

(** X3. [f.Then(node)] with a node that is not a flow, stands alone (its
    [next] is nil) and is not yet in the chain puts this very node at the end
    of the chain; no cell is allocated.  A nil [node] makes [Then] panic. *)
Theorem Then_node_appends h f name fics nics locs l c :
  wf_flow h f name fics nics locs ->
  h !! l = Some c -> base_next c = Some None -> l ∉ locs ->
  Then f None h = None /\
  exists h',
    Then f (Some l) h = Some h' /\
    wf_flow h' f name fics nics (locs ++ [l]) /\
    length h' = length h /\
    (forall l', l' <> f -> Some l' <> last locs -> h' !! l' = h !! l').
Proof.
  intros Hwf Hl Hb Hnin. split; [done|].
  destruct (appendNode_fresh _ _ _ _ _ _ _ _ Hwf Hl Hb Hnin)
    as (h' & Happ & Hwf' & Hlen & Hframe & _).
  exists h'. split; [|done].
  unfold Then. rewrite Hl. by destruct c.
Qed.

(** ** From the builder calls to the run *)

Lemma do_chain_intro h (acts : list (loc * (W -> result W))) :
  forall n, chain h n (acts.*1) ->
  Forall (fun a => exists nm nx, h !! a.1 = Some (doNode nm nx a.2)) acts ->
  do_chain h n acts.
Proof.
  induction acts as [|[l fn] acts IH]; intros n Hch Hall; [done|].
  rewrite fmap_cons in Hch. cbn [fst chain] in Hch.
  destruct Hch as [-> (c & nx & Hl & Hb & Hrest)].
  apply Forall_cons in Hall as [(nm & nx' & Hl') Hall]. cbn [fst snd] in Hl'.
  rewrite Hl in Hl'. injection Hl' as ->. simpl in Hb. injection Hb as ->.
  split; [done|]. exists nm, nx. split; [done|]. by apply IH.
Qed.

Lemma do_all_spec f name fics nics (acts : list (string * (W -> result W))) :
  forall h pre,
  wf_flow h f name fics nics (pre.*1) ->
  Forall (fun a => exists nm nx, h !! a.1 = Some (doNode nm nx a.2)) pre ->
  exists h',
    do_all f acts h = Some h' /\
    wf_flow h' f name fics nics
      ((pre ++ zip (seq (length h) (length acts)) (acts.*2)).*1) /\
    Forall (fun a => exists nm nx, h' !! a.1 = Some (doNode nm nx a.2))
      (pre ++ zip (seq (length h) (length acts)) (acts.*2)).
Proof.
  induction acts as [|[nm fn] acts IH]; intros h pre Hwf Hall.
  - exists h. simpl. rewrite app_nil_r. done.
  - destruct (Flow_Do_shape _ _ _ _ _ _ nm fn Hwf)
      as (h1 & Hdo & Hwf1 & Hnew & Hlen & Hframe & Htail).
    assert (Forall (fun a => exists nm nx, h1 !! a.1 = Some (doNode nm nx a.2))
              (pre ++ [(length h, fn)])) as Hall1.
    { apply Forall_app. split; [|by repeat constructor; eauto].
      apply Forall_forall. intros [l fn0] Hin.
      pose proof (proj1 (Forall_forall _ _) Hall _ Hin) as (nm0 & nx0 & Hl).
      simpl in *.
      destruct (decide (Some l = last (pre.*1))) as [Hlast|Hlast].
      - rewrite (Htail l _ (eq_sym Hlast) Hl). simpl. eauto.
      - rewrite Hframe; [eauto|by eapply lookup_lt_Some| |done].
        intros ->. destruct Hwf as [Hf _]. by rewrite Hf in Hl. }
    destruct (IH h1 (pre ++ [(length h, fn)])) as (h' & Hall' & Hwf' & Hacts').
    { by rewrite fmap_app. }
    { done. }
    exists h'. simpl. rewrite Hdo. split; [done|].
    rewrite Hlen, <- app_assoc in Hwf', Hacts'. done.
Qed.

(** X4. [flow.New(name).Do(name1, fn1)...Do(nameN, fnN)] builds, at the
    fresh pointers that follow the flow, a chain of N action nodes, and [Run]
    on it, with fuel for the N nodes, returns: it runs the functions in the
    order of the calls, each once, up to the first that fails, whose error
    it returns; if none fails it succeeds. *)
Theorem built_actions_run (h0 : list (cell W)) name
    (acts : list (string * (W -> result W))) :
  exists h,
    do_all (length h0) acts (New name h0).2 = Some h /\
    wf_flow h (length h0) name [] []
      (seq (S (length h0)) (length acts)) /\
    forall fuel w, length acts <= fuel ->
      Run sched fuel h (length h0) w
      = Some (exec_actions []
                (zip (seq (S (length h0)) (length acts)) (acts.*2)) w).
Proof.
  assert (wf_flow (New name h0).2 (length h0) name [] [] ([] : list loc))
    as Hwf0.
  { split; [|done]. simpl. rewrite lookup_app_r by lia.
    by rewrite Nat.sub_diag. }
  destruct (do_all_spec (length h0) name [] [] acts _ [] Hwf0 (Forall_nil_2 _))
    as (h & Hall & Hwf & Hacts).
  simpl in Hwf, Hacts. rewrite length_app in Hwf, Hacts. simpl in Hwf, Hacts.
  rewrite Nat.add_1_r in Hwf, Hacts.
  assert (length (seq (S (length h0)) (length acts)) = length (acts.*2)) as Hlen.
  { by rewrite length_seq, length_fmap. }
  rewrite fst_zip in Hwf by lia.
  exists h. split; [done|]. split; [done|].
  intros fuel w Hfuel. destruct Hwf as [Hf Hch].
  assert (do_chain h (head (seq (S (length h0)) (length acts)))
            (zip (seq (S (length h0)) (length acts)) (acts.*2))) as Hdo.
  { apply do_chain_intro; [|done]. by rewrite fst_zip by lia. }
  unfold Run. rewrite Hf. simpl.
  assert (length (zip (seq (S (length h0)) (length acts)) (acts.*2)) <= fuel)
    as Hfuel'.
  { rewrite length_zip_with, length_seq. lia. }
  pose proof (run_do_chain sched _ [] _ _ _ w Hdo Hfuel') as Hrun.
  destruct (head (seq (S (length h0)) (length acts))) as [first|] eqn:Hhd.
  - exact Hrun.
  - destruct acts as [|a acts]; [done|discriminate].
Qed.

(** ** Interceptors are added to the flow, not to the nodes *)

Lemma wf_flow_interceptors h f name fics nics locs fics' nics' :
  wf_flow h f name fics nics locs ->
  wf_flow (<[f := Flow name (head locs) (last locs) fics' nics']> h)
    f name fics' nics' locs.
Proof.
  intros [Hf Hch]. split.
  - apply list_lookup_insert_eq. by eapply lookup_lt_Some.
  - apply chain_insert_other; [|done]. by eapply chain_not_flow.
Qed.

Lemma interceptors_Do_commute h f name fics nics locs fics' nics' nm fn h1 :
  wf_flow h f name fics nics locs ->
  Flow_Do f nm fn h = Some h1 ->
  Flow_Do f nm fn (<[f := Flow name (head locs) (last locs) fics' nics']> h)
  = Some (<[f := Flow name (head (locs ++ [length h])) (last (locs ++ [length h]))
                   fics' nics']> h1).
Proof.
  intros Hwf Hdo.
  pose proof Hwf as [Hf Hch].
  assert (f < length h) as Hflt by (by eapply lookup_lt_Some).
  destruct (Flow_Do_shape _ _ _ _ _ _ nm fn Hwf)
    as (h1' & Hdo' & Hwf1 & Hnew1 & Hlen1 & Hframe1 & Htail1).
  rewrite Hdo in Hdo'. injection Hdo' as <-.
  pose proof (wf_flow_interceptors _ _ _ _ _ _ fics' nics' Hwf) as Hwfg.
  destruct (Flow_Do_shape _ _ _ _ _ _ nm fn Hwfg)
    as (g1 & Hdog & Hwfg1 & Hnewg & Hleng & Hframeg & Htailg).
  rewrite length_insert in *.
  rewrite Hdog. f_equal. apply list_eq. intros j.
  destruct (decide (j = f)) as [->|Hjf].
  { destruct Hwfg1 as [-> _]. symmetry. apply list_lookup_insert_eq. lia. }
  rewrite list_lookup_insert_ne by done.
  destruct (decide (j < length h)) as [Hlt|Hge].
  - destruct (decide (Some j = last locs)) as [Hlast|Hlast].
    + assert (j ∈ locs) as Hin by (by apply last_Some_elem_of).
      destruct (chain_base _ _ _ _ Hch Hin) as (ct & nx & Hct & _).
      rewrite (Htail1 _ _ (eq_sym Hlast) Hct).
      apply (Htailg _ _ (eq_sym Hlast)). by rewrite list_lookup_insert_ne.
    + rewrite Hframe1, Hframeg by done. by rewrite list_lookup_insert_ne.
  - destruct (decide (j = length h)) as [->|Hne]; [by rewrite Hnew1, Hnewg|].
    rewrite !lookup_ge_None_2; [done|lia|lia].
Qed.

(** X5. On a flow in shape, adding an interceptor and adding an action
    commute: [f.AddNodeInterceptor(i).Do(name, fn)] and
    [f.Do(name, fn).AddNodeInterceptor(i)] leave the same store, and so do the
    two orders for [AddFlowInterceptor].  An interceptor therefore applies to
    the nodes added before it as well as to those added after it. *)
Theorem interceptor_then_action_commute h f name fics nics locs i nm fn :
  wf_flow h f name fics nics locs ->
  (exists h', AddNodeInterceptor f i h ≫= Flow_Do f nm fn = Some h' /\
              Flow_Do f nm fn h ≫= AddNodeInterceptor f i = Some h' /\
              wf_flow h' f name fics (nics ++ [i]) (locs ++ [length h])) /\
  (exists h', AddFlowInterceptor f i h ≫= Flow_Do f nm fn = Some h' /\
              Flow_Do f nm fn h ≫= AddFlowInterceptor f i = Some h' /\
              wf_flow h' f name (fics ++ [i]) nics (locs ++ [length h])).
Proof.
  intros Hwf. pose proof Hwf as [Hf _].
  destruct (Flow_Do_shape _ _ _ _ _ _ nm fn Hwf)
    as (h1 & Hdo & Hwf1 & _).
  pose proof Hwf1 as [Hf1 _].
  split.
  - eexists. unfold AddNodeInterceptor. rewrite Hf, Hdo. simpl. rewrite Hf1.
    split; [|split; [reflexivity|]].
    + by apply interceptors_Do_commute with fics nics.
    + by apply wf_flow_interceptors with fics nics.
  - eexists. unfold AddFlowInterceptor. rewrite Hf, Hdo. simpl. rewrite Hf1.
    split; [|split; [reflexivity|]].
    + by apply interceptors_Do_commute with fics nics.
    + by apply wf_flow_interceptors with fics nics.
Qed.

End BuilderFacts.

(** * More on the run of nodes *)

Section RunFacts.

Context {W : Type} (sched : loc -> nat -> nat).

Implicit Types (h : list (cell W)) (l f : loc) (n next : Node) (w : W)
  (ics fics nics : list (Interceptor W)) (c : cell W).

(** X6. The filter loop of [InSequence] and [InParallel] leaves no nil
    entry, keeps the other arguments in their order, and changes nothing in
    a list that has no nil. *)
Theorem filteredNodes_keeps_nodes (args : list Node) :
  Forall is_Some (filteredNodes args) /\
  filteredNodes args `sublist_of` args /\
  (forall l, Some l ∈ filteredNodes args <-> Some l ∈ args) /\
  (Forall is_Some args -> filteredNodes args = args).
Proof.
  induction args as [|[l|] args (IH1 & IH2 & IH3 & IH4)].
  - repeat split; done.
  - cbn [filteredNodes]. split; [by constructor|]. split; [by constructor|].
    split.
    + intros l'. rewrite !elem_of_cons, IH3. done.
    + intros Hall. apply Forall_cons in Hall as [_ Hall]. f_equal. auto.
  - cbn [filteredNodes]. split; [done|]. split; [by constructor|]. split.
    + intros l'. rewrite elem_of_cons, IH3. split; [by right|].
      by intros [[=]|?].
    + intros Hall. apply Forall_cons in Hall as [[? [=]] _].
Qed.

Lemma run_each_filteredNodes rec (args : list Node) ics w :
  run_each rec (filteredNodes args) ics w = run_each rec args ics w.
Proof.
  revert w. induction args as [|[l|] args IH]; intros w; simpl; [done| |done].
  destruct (rec l ics w) as [[w1 [e|]]|]; auto.
Qed.

Lemma run_each_app rec (ns1 ns2 : list Node) ics w :
  run_each rec (ns1 ++ ns2) ics w =
  match run_each rec ns1 ics w with
  | Some (w1, None) => run_each rec ns2 ics w1
  | r => r
  end.
Proof.
  revert w. induction ns1 as [|[l|] ns1 IH]; intros w; simpl; [done| |done].
  destruct (rec l ics w) as [[w1 [e|]]|]; auto.
Qed.

(** X7. The node [InSequence(name, args...)] builds, when run, is the loop
    over the arguments as they were given: a nil argument is passed over, the
    other sub-nodes are run in order with the interceptor list the node
    itself was run with, and the result is that of the loop. *)
Theorem InSequence_run name (args : list Node) h fuel ics w :
  run sched (S fuel) (InSequence name args h).2 (InSequence name args h).1 ics w
  = run_each (run sched fuel (InSequence name args h).2) args ics w.
Proof.
  rewrite run_unfold. unfold InSequence. rewrite lookup_alloc. simpl.
  unfold sequenceNode_run. rewrite run_each_filteredNodes.
  by destruct (run_each _ args ics w) as [[w1 [e|]]|].
Qed.

(** X8. A sequence node stops at the first sub-node that fails: when the
    sub-nodes before [l] succeed and [l] fails with [e], the node returns [e]
    and the world [l] leaves; neither the sub-nodes after [l] nor the [next]
    of the sequence node are run. *)
Theorem sequence_first_failure fuel h s name next pre l post ics w w1 w2 e :
  h !! s = Some (sequenceNode name next (pre ++ Some l :: post)) ->
  run_each (run sched fuel h) pre ics w = Some (w1, None) ->
  run sched fuel h l ics w1 = Some (w2, Some e) ->
  run sched (S fuel) h s ics w = Some (w2, Some e).
Proof.
  intros Hs Hpre Hl. rewrite run_unfold, Hs. simpl. unfold sequenceNode_run.
  rewrite run_each_app, Hpre. simpl. by rewrite Hl.
Qed.

Lemma run_standalone fuel h l c ics w :
  h !! l = Some c -> base_next c = Some None ->
  run sched (S fuel) h l ics w = work sched fuel h l ics w.
Proof.
  intros Hl Hb. rewrite (run_work _ _ _ _ _ _ _ _ Hl Hb).
  by destruct (work sched fuel h l ics w) as [[w1 [e|]]|].
Qed.

(** X9. A sequence of nodes that stand alone (their own [next] is nil)
    does what the same nodes do when they are chained one after the other:
    the work of each, in list order, up to the first failure. *)
Theorem sequence_of_standalone_nodes fuel h (locs : list loc) ics w :
  Forall (fun l => exists c, h !! l = Some c /\ base_next c = Some None) locs ->
  run_each (run sched (S fuel) h) (Some <$> locs) ics w
  = run_chain sched fuel h ics locs w.
Proof.
  intros Hall. revert w. induction Hall as [|l locs (c & Hl & Hb) _ IH];
    intros w; [done|].
  rewrite fmap_cons. cbn [run_each run_chain].
  rewrite (run_standalone _ _ _ _ _ _ Hl Hb).
  destruct (work sched fuel h l ics w) as [[w1 [e|]]|]; auto.
Qed.

(** X10. The interceptor loop calls the interceptors in list order and
    ends with the first that fails: when those before [i] pass and [i] fails
    with [e], the loop returns [e] and the world [i] leaves, whatever the
    interceptors after [i] are. *)
Theorem run_interceptors_first_failure (pre post : list (Interceptor W)) i n w w1 w2 e :
  run_interceptors pre n w = (w1, None) ->
  i n w1 = (w2, Some e) ->
  run_interceptors (pre ++ i :: post) n w = (w2, Some e).
Proof.
  intros Hpre Hi. rewrite run_interceptors_app, Hpre. simpl. by rewrite Hi.
Qed.

(** X11. An action, a conditional or a parallel node whose interceptor
    loop fails returns the interceptor's error: the function, the predicate,
    the sub-nodes and the successor are not run (the result is the same with
    no fuel left for any further call). *)
Theorem node_interceptor_veto h l c ics w w1 e :
  h !! l = Some c ->
  match c with
  | doNode _ _ _ | conditionalNode _ _ _ _ | parallelNode _ _ _ => True
  | sequenceNode _ _ _ | Flow _ _ _ _ _ => False
  end ->
  run_interceptors ics (Some l) w = (w1, Some e) ->
  forall fuel, run sched (S fuel) h l ics w = Some (w1, Some e).
Proof.
  intros Hl Hc Hic fuel. rewrite run_unfold, Hl.
  by apply interceptor_failure_aborts.
Qed.

(** X17. On a flow whose chain consists of N action nodes, [Run] with
    fuel for the N nodes returns, and what it returns is the result of the
    flow-level interceptors followed, if they pass, by the actions in chain
    order under the node-level interceptors, up to the first failure; with
    no failure at all it succeeds after running every action once. *)
Theorem action_chain_run fuel h f name first tl fics nics acts w :
  h !! f = Some (Flow name (Some first) tl fics nics) ->
  do_chain h (Some first) acts ->
  length acts <= fuel ->
  Run sched fuel h f w =
  Some (match run_interceptors fics None w with
        | (w0, Some e) => (w0, Some e)
        | (w0, None) => exec_actions nics acts w0
        end).
Proof.
  intros Hf Hch Hfuel. unfold Run. rewrite Hf.
  destruct (run_interceptors fics None w) as [w0 [e|]]; [done|].
  exact (run_do_chain sched _ nics _ _ _ w0 Hch Hfuel).
Qed.

End RunFacts.

(** * More on the coordination of a parallel node *)

Module ParMore.

Import Par ParFacts.

(** X12. [close(errChan)] comes after every send: once the channel is
    closed every goroutine has called [wg.Done], so that no goroutine is left
    that could send on the closed channel (which would panic). *)
Theorem closed_after_all_sends outs s :
  reachable outs s -> closed s = true ->
  Forall (fun u => pc u = Finished) (workers s) /\
  forall i e, workers s !! i <> Some (Worker Running (Some e)).
Proof.
  intros Hr Hcl. pose proof (inv_closed _ _ (inv_reachable _ _ Hr) Hcl) as Hfin.
  split.
  - apply Forall_lookup_2. exact Hfin.
  - intros i e Hi. by pose proof (Hfin _ _ Hi).
Qed.

(** X13. A goroutine whose sub-node failed never blocks on its send: the
    buffer of [errChan], which has room for one error per sub-node, is not
    full, so the send is a transition the goroutine can take at once. *)
Theorem send_never_blocks outs s i e :
  reachable outs s ->
  workers s !! i = Some (Worker Running (Some e)) ->
  length (errChan s) < length (workers s) /\
  exists s', step s s' /\ errChan s' = errChan s ++ [e].
Proof.
  intros Hr Hi.
  assert (length (errChan s) < length (workers s)) as Hroom.
  { pose proof (inv_room _ _ (inv_reachable _ _ Hr)).
    pose proof (returned_count_running _ _ _ Hi). lia. }
  split; [done|]. eexists. split; [by apply (step_send s i e)|done].
Qed.

Lemma progress outs s :
  inv outs s ->
  (exists s', step s s') \/
  (Forall (fun u => pc u = Finished) (workers s) /\ closed s = true /\
   main s <> Ranging).
Proof.
  intros Hinv.
  destruct (finished_or_not (workers s)) as [Hall|(i & [p o] & Hi & Hp)].
  - destruct (closed s) eqn:Hcl.
    + destruct (main s) as [|e|] eqn:Hm.
      * left. destruct (errChan s) as [|e rest] eqn:Hch.
        -- eexists. by apply step_end.
        -- eexists. by eapply step_recv.
      * by right.
      * by right.
    + left. eexists. by apply step_close.
  - left. simpl in Hp. destruct p; [| |done].
    + destruct o as [e|].
      * eexists. apply (step_send s i e); [done|].
        pose proof (inv_room _ _ Hinv).
        pose proof (returned_count_running _ _ _ Hi). lia.
      * eexists. by apply (step_ok s i).
    + eexists. by apply (step_done s i o).
Qed.

Lemma comes_to_rest outs k :
  forall s, measure s <= k -> inv outs s ->
  exists s', rtc step s s' /\
    Forall (fun u => pc u = Finished) (workers s') /\ closed s' = true /\
    main s' <> Ranging.
Proof.
  induction k as [|k IH]; intros s Hk Hinv.
  - destruct (progress _ _ Hinv) as [[s1 Hstep]|Hq].
    + apply step_measure in Hstep. lia.
    + exists s. split; [apply rtc_refl|done].
  - destruct (progress _ _ Hinv) as [[s1 Hstep]|Hq].
    + destruct (IH s1) as (s' & Hrtc & Hq).
      * apply step_measure in Hstep. lia.
      * by eapply inv_step.
      * exists s'. split; [by eapply rtc_l|done].
    + exists s. split; [apply rtc_refl|done].
Qed.

(** X14. No goroutine is left behind: from every state the coordination
    can reach, also one in which [run] has already returned an error, the
    threads go on to a state in which every goroutine has finished and the
    channel is closed. *)
Theorem goroutines_all_join outs s :
  reachable outs s ->
  exists s', rtc step s s' /\
    Forall (fun u => pc u = Finished) (workers s') /\ closed s' = true /\
    main s' <> Ranging /\
    (forall e, main s = Returned e -> main s' = Returned e).
Proof.
  intros Hr.
  destruct (comes_to_rest outs (measure s) s (le_n _) (inv_reachable _ _ Hr))
    as (s' & Hrtc & Hall & Hcl & Hm).
  exists s'. split; [done|]. split; [done|]. split; [done|]. split; [done|].
  clear -Hrtc. induction Hrtc as [|s0 s1 s2 Hstep _ IH]; [done|].
  intros e He. apply IH.
  destruct Hstep; simpl in *; try done; congruence.
Qed.

(** X15. Which failure is reported is up to the scheduler: for every
    sub-node that fails, there is an execution in which [run] returns the
    error of this sub-node. *)
Theorem each_failure_can_be_the_result outs e :
  Some e ∈ outs -> exists s, reachable outs s /\ main s = Returned e.
Proof. apply any_failure_can_be_reported. Qed.

(** X16. [run] goes on to its [next] only when every goroutine has
    finished. *)
Theorem next_only_after_join outs s :
  reachable outs s -> main s = AtNext ->
  Forall (fun u => pc u = Finished) (workers s).
Proof. apply next_after_all_units. Qed.

End ParMore.

(** * The flow that is spliced in *)

Section SpliceFacts.

Context {W : Type}.

Implicit Types (h : list (cell W)) (l f : loc) (n next : Node)
  (ics fics nics : list (Interceptor W)) (c : cell W).

(** X18. [f1.Then(f2)] does not touch [f2]: when both flows are in shape
    and their chains share no node, [f2] afterwards still has its name, its
    interceptor lists, its head and its tail, and its chain is still the same
    nodes ending in nil.  The nodes are not copied: the two flows share
    them.  When [f2] is empty the call changes nothing at all. *)
Theorem Then_keeps_argument_flow h f1 f2 nm1 fi1 ni1 locs1 nm2 fi2 ni2 locs2 h' :
  wf_flow h f1 nm1 fi1 ni1 locs1 ->
  wf_flow h f2 nm2 fi2 ni2 locs2 ->
  (forall l, l ∈ locs1 -> l ∉ locs2) ->
  Then f1 (Some f2) h = Some h' ->
  wf_flow h' f2 nm2 fi2 ni2 locs2 /\
  length h' = length h /\
  (forall l, l ∈ locs2 -> h' !! l = h !! l) /\
  (locs2 = [] -> h' = h).
Proof.
  intros [Hf1 Hc1] [Hf2 Hc2] Hdisj Hthen.
  cut (wf_flow h' f2 nm2 fi2 ni2 locs2 /\ length h' = length h /\
       (forall l, l ∈ locs2 -> h' !! l = h !! l)).
  { intros (Ha & Hb & Hc). split; [done|]. split; [done|]. split; [done|].
    intros ->. unfold Then in Hthen. rewrite Hf2 in Hthen.
    unfold appendFlow in Hthen. rewrite Hf2 in Hthen. by injection Hthen. }
  unfold Then in Hthen. rewrite Hf2 in Hthen.
  unfold appendFlow in Hthen. rewrite Hf2 in Hthen.
  destruct locs2 as [|l2 rest2].
  { injection Hthen as <-. done. }
  cbn [head] in Hthen. rewrite Hf1 in Hthen.
  assert (f1 ∉ l2 :: rest2) as Hf1n by (by eapply chain_not_flow).
  destruct locs1 as [|l1 rest1].
  - cbn [head] in Hthen. unfold set_head_tail in Hthen. rewrite Hf1 in Hthen.
    injection Hthen as <-.
    assert (f1 <> f2) as Hne.
    { intros ->. rewrite Hf1 in Hf2. done. }
    split; [split|split].
    + by rewrite list_lookup_insert_ne.
    + by apply chain_insert_other.
    + by rewrite length_insert.
    + intros l Hl. rewrite list_lookup_insert_ne; [done|]. by intros ->.
  - cbn [head] in Hthen.
    destruct (last (l1 :: rest1)) as [t|] eqn:Hlast;
      [|by rewrite last_None in Hlast].
    assert (t ∈ l1 :: rest1) as Hin by (by apply last_Some_elem_of).
    destruct (chain_base _ _ _ _ Hc1 Hin) as (ct & nx & Ht & Hbt).
    assert (t <> f1) as Htf1.
    { intros ->. rewrite Hf1 in Ht. injection Ht as <-. done. }
    assert (t <> f2) as Htf2.
    { intros ->. rewrite Hf2 in Ht. injection Ht as <-. done. }
    assert (f1 <> f2) as Hne.
    { intros ->. rewrite Hf1 in Hf2. cbn [head] in Hf2.
      assert (l1 = l2) as -> by congruence. apply (Hdisj l2); by left. }
    unfold depth in Hthen. rewrite (setNext_base _ _ _ _ _ _ Ht Hbt) in Hthen.
    rewrite list_lookup_insert_ne, Hf2 in Hthen by done.
    unfold set_tail in Hthen.
    rewrite list_lookup_insert_ne, Hf1 in Hthen by done.
    injection Hthen as <-.
    split; [split|split].
    + by rewrite !list_lookup_insert_ne.
    + apply chain_insert_other; [done|].
      apply chain_insert_other; [by apply Hdisj|done].
    + by rewrite !length_insert.
    + intros l Hl. rewrite !list_lookup_insert_ne; [done| |].
      * intros Heq. apply (Hdisj l); [by rewrite <- Heq|done].
      * by intros ->.
Qed.

End SpliceFacts.

(** * Keys and logger scopes *)

Module ClientsFacts.

Import Clients.

Lemma append_nil (s : string) : "" +:+ s = s.
Proof. reflexivity. Qed.

Lemma append_cons a (r s : string) : String a r +:+ s = String a (r +:+ s).
Proof. reflexivity. Qed.

Lemma RedisID_inj prefix : forall prefix' id id',
  has_colon prefix = false -> has_colon prefix' = false ->
  RedisID prefix id = RedisID prefix' id' -> prefix = prefix' /\ id = id'.
Proof.
  unfold RedisID.
  induction prefix as [|a r IH]; intros [|a' r'] id id' Hp Hp' Heq;
    repeat (rewrite append_nil in Heq || rewrite append_cons in Heq);
    simpl in Hp, Hp'.
  - by injection Heq as ->.
  - injection Heq as <- _. by rewrite Ascii.eqb_refl in Hp'.
  - injection Heq as -> _. by rewrite Ascii.eqb_refl in Hp.
  - injection Heq as -> Heq.
    destruct (Ascii.eqb a' _); [done|].
    destruct (IH _ _ _ Hp Hp' Heq) as [-> ->]. done.
Qed.

(** X19. Keys do not collide as long as the parts before the last one
    contain no colon: [RedisID] maps different pairs of a colon-free prefix
    and an id to different keys, and [ProtoKey] different triples of a
    colon-free prefix, a colon-free message type and an id. *)
Theorem keys_do_not_collide prefix prefix' mt mt' id id' :
  has_colon prefix = false -> has_colon prefix' = false ->
  (RedisID prefix id = RedisID prefix' id' -> prefix = prefix' /\ id = id') /\
  (has_colon mt = false -> has_colon mt' = false ->
   ProtoKey prefix mt id = ProtoKey prefix' mt' id' ->
   prefix = prefix' /\ mt = mt' /\ id = id').
Proof.
  intros Hp Hp'. split; [by apply RedisID_inj|].
  intros Hm Hm' Heq.
  destruct (RedisID_inj prefix prefix' (RedisID mt id) (RedisID mt' id') Hp Hp' Heq)
    as [-> Heq'].
  by destruct (RedisID_inj _ _ _ _ Hm Hm' Heq') as [-> ->].
Qed.

(** A colon in the prefix is enough for two different pairs to meet. *)
Example RedisID_collision : RedisID "a:b" "c" = RedisID "a" "b:c".
Proof. reflexivity. Qed.

Lemma range_assign_union (entries : list (string * string)) :
  forall m, NoDup (entries.*1) ->
  range_assign entries m = list_to_map entries ∪ m.
Proof.
  unfold range_assign.
  induction entries as [|[k v] entries IH]; intros m Hnd; simpl.
  - by rewrite (left_id_L ∅ (∪)).
  - rewrite fmap_cons in Hnd. apply NoDup_cons in Hnd as [Hk Hnd].
    rewrite IH by done. rewrite <- insert_union_l.
    symmetry. apply insert_union_r. by apply not_elem_of_list_to_map_1.
Qed.

Lemma range_assign_all (entries : list (string * string))
    (src m : gmap string string) :
  entries ≡ₚ map_to_list src -> range_assign entries m = src ∪ m.
Proof.
  intros Hperm.
  assert (NoDup (entries.*1)) as Hnd.
  { rewrite Hperm. apply NoDup_fst_map_to_list. }
  rewrite range_assign_union by done. f_equal.
  rewrite <- (list_to_map_to_list src).
  apply list_to_map_proper; [done|]. by rewrite Hperm.
Qed.

(** X20. Whatever the orders in which the two loops of [Named] visit the
    entries, the scopes of the new logger are the old scopes overridden by
    the given ones: a key of [new] has the value [new] gives it, every other
    key the value it had; the underlying zap logger is shared. *)
Theorem Named_overrides order1 order2 (l : LoggingClient)
    (new : gmap string string) :
  order1 ≡ₚ map_to_list (scopes l) ->
  order2 ≡ₚ map_to_list new ->
  scopes (Named order1 order2 l) = new ∪ scopes l /\
  sugar (Named order1 order2 l) = sugar l /\
  forall k, scopes (Named order1 order2 l) !! k =
            match new !! k with
            | Some v => Some v
            | None => scopes l !! k
            end.
Proof.
  intros H1 H2.
  assert (scopes (Named order1 order2 l) = new ∪ scopes l) as Heq.
  { simpl. rewrite (range_assign_all _ _ _ H1), (range_assign_all _ _ _ H2).
    by rewrite (right_id_L ∅ (∪)). }
  split; [done|]. split; [done|].
  intros k. rewrite Heq, lookup_union.
  by destruct (new !! k), (scopes l !! k).
Qed.

End ClientsFacts.

(** * More worked instances *)

Section MoreInstances.

Import Demo Scenes.

Lemma one_action_in_shape : wf_flow one_action 0 "f" [] [] [1].
Proof.
  split; [reflexivity|]. simpl. split; [reflexivity|].
  eexists _, _. split; [reflexivity|]. split; reflexivity.
Qed.

Lemma Flow_Do_appends_witness :
  wf_flow one_action 0 "f" [] [] [1] /\
  exists h',
    Flow_Do 0 "b" (act "b") one_action = Some h' /\
    wf_flow h' 0 "f" [] [] [1; 2] /\
    h' !! 2 = Some (doNode "b" None (act "b")).
Proof.
  split; [exact one_action_in_shape|].
  destruct (Flow_Do_appends _ _ _ _ _ _ "b" (act "b") one_action_in_shape)
    as (h' & Hdo & Hwf & Hnew & _).
  exists h'. split; [exact Hdo|]. split; [exact Hwf|exact Hnew].
Defined.

Lemma Flow_If_appends_witness :
  wf_flow one_action 0 "f" [] [] [1] /\
  exists h',
    Flow_If 0 "c" (always true) None one_action = Some h' /\
    wf_flow h' 0 "f" [] [] [1; 2] /\
    h' !! 2 = Some (conditionalNode "c" None (always true) None).
Proof.
  split; [exact one_action_in_shape|].
  destruct (Flow_If_appends _ _ _ _ _ _ "c" (always true) None
              one_action_in_shape) as (h' & Hif & Hwf & Hnew & _).
  exists h'. split; [exact Hif|]. split; [exact Hwf|exact Hnew].
Defined.

Lemma conditional_flow_in_shape : wf_flow (conditional_flow true) 0 "f" [] [] [2; 3].
Proof.
  split; [reflexivity|]. simpl. split; [reflexivity|].
  eexists _, _. split; [reflexivity|]. split; [reflexivity|].
  split; [reflexivity|]. eexists _, _. split; [reflexivity|]. split; reflexivity.
Qed.

Lemma Then_node_appends_witness :
  wf_flow (conditional_flow true) 0 "f" [] [] [2; 3] /\
  conditional_flow true !! 1 = Some (doNode "x" None (act "x")) /\
  (1 ∉ [2; 3]) /\
  exists h',
    Then 0 (Some 1) (conditional_flow true) = Some h' /\
    wf_flow h' 0 "f" [] [] [2; 3; 1].
Proof.
  assert (conditional_flow true !! 1 = Some (doNode "x" None (act "x"))) as H1
    by reflexivity.
  assert (1 ∉ [2; 3]) as H2.
  { intros Hin. rewrite !elem_of_cons, elem_of_nil in Hin. lia. }
  split; [exact conditional_flow_in_shape|]. split; [exact H1|].
  split; [exact H2|].
  destruct (Then_node_appends _ _ _ _ _ _ _ _ conditional_flow_in_shape
              H1 eq_refl H2) as (_ & h' & Hthen & Hwf & _).
  exists h'. split; [exact Hthen|exact Hwf].
Defined.

Lemma built_actions_run_witness :
  exists h,
    do_all 0 [("a", act "a"); ("b", failing "b" "boom"); ("c", act "c")]
      (New "f" []).2 = Some h /\
    (2 <= 3 ->
     Run in_order 3 h 0 [] = Some ([Acted "a"; Acted "b"], Some "boom")).
Proof.
  destruct (built_actions_run in_order [] "f"
              [("a", act "a"); ("b", failing "b" "boom"); ("c", act "c")])
    as (h & Hall & _ & Hrun).
  exists h. split; [exact Hall|]. intros _.
  exact (Hrun 3 [] ltac:(simpl; lia)).
Defined.

Lemma interceptor_then_action_commute_witness :
  wf_flow one_action 0 "f" [] [] [1] /\
  exists h',
    AddNodeInterceptor 0 tracer one_action ≫= Flow_Do 0 "b" (act "b") = Some h' /\
    Flow_Do 0 "b" (act "b") one_action ≫= AddNodeInterceptor 0 tracer = Some h'.
Proof.
  split; [exact one_action_in_shape|].
  destruct (interceptor_then_action_commute _ _ _ _ _ _ tracer "b" (act "b")
              one_action_in_shape) as [(h' & H1 & H2 & _) _].
  exists h'. split; [exact H1|exact H2].
Defined.

Lemma sequence_first_failure_witness :
  failing_sequence !! 4
    = Some (sequenceNode "s" (Some 5) ([Some 1] ++ Some 2 :: [Some 3])) /\
  run_each (run in_order 1 failing_sequence) [Some 1] [] []
    = Some ([Acted "a"], None) /\
  run in_order 1 failing_sequence 2 [] [Acted "a"]
    = Some ([Acted "a"; Acted "b"], Some "boom") /\
  run in_order 2 failing_sequence 4 [] []
    = Some ([Acted "a"; Acted "b"], Some "boom").
Proof.
  assert (failing_sequence !! 4
          = Some (sequenceNode "s" (Some 5) ([Some 1] ++ Some 2 :: [Some 3])))
    as H1 by reflexivity.
  assert (run_each (run in_order 1 failing_sequence) [Some 1] [] []
          = Some ([Acted "a"], None)) as H2 by reflexivity.
  assert (run in_order 1 failing_sequence 2 [] [Acted "a"]
          = Some ([Acted "a"; Acted "b"], Some "boom")) as H3 by reflexivity.
  split; [exact H1|]. split; [exact H2|]. split; [exact H3|].
  exact (sequence_first_failure in_order 1 _ _ _ _ _ _ _ _ _ _ _ _ H1 H2 H3).
Defined.

Lemma sequence_of_standalone_nodes_witness :
  Forall (fun l => exists c, failing_sequence !! l = Some c /\
                             base_next c = Some None) [1; 2; 3] /\
  run_each (run in_order 1 failing_sequence) (Some <$> [1; 2; 3]) [] []
  = run_chain in_order 0 failing_sequence [] [1; 2; 3] [].
Proof.
  assert (Forall (fun l => exists c, failing_sequence !! l = Some c /\
                                     base_next c = Some None) [1; 2; 3]) as H.
  { repeat constructor; eexists; split; reflexivity. }
  split; [exact H|].
  exact (sequence_of_standalone_nodes in_order 0 _ _ [] [] H).
Defined.

Lemma run_interceptors_first_failure_witness :
  run_interceptors [tracer] (Some 7) [] = ([Fired (Some 7)], None) /\
  veto "denied" (Some 7) [Fired (Some 7)]
    = ([Fired (Some 7); Fired (Some 7)], Some "denied") /\
  run_interceptors ([tracer] ++ veto "denied" :: [tracer]) (Some 7) []
    = ([Fired (Some 7); Fired (Some 7)], Some "denied").
Proof.
  assert (run_interceptors [tracer] (Some 7) [] = ([Fired (Some 7)], None))
    as H1 by reflexivity.
  assert (veto "denied" (Some 7) [Fired (Some 7)]
          = ([Fired (Some 7); Fired (Some 7)], Some "denied")) as H2
    by reflexivity.
  split; [exact H1|]. split; [exact H2|].
  exact (run_interceptors_first_failure _ [tracer] _ _ _ _ _ _ H1 H2).
Defined.

Lemma node_interceptor_veto_witness :
  three_actions !! 1 = Some (doNode "a1" (Some 2) (act "a1")) /\
  run_interceptors [veto "no"] (Some 1) [] = ([Fired (Some 1)], Some "no") /\
  run in_order 1 three_actions 1 [veto "no"] []
    = Some ([Fired (Some 1)], Some "no").
Proof.
  assert (three_actions !! 1 = Some (doNode "a1" (Some 2) (act "a1"))) as H1
    by reflexivity.
  assert (run_interceptors [veto "no"] (Some 1) []
          = ([Fired (Some 1)], Some "no")) as H2 by reflexivity.
  split; [exact H1|]. split; [exact H2|].
  exact (node_interceptor_veto in_order _ _ _ _ _ _ _ H1 I H2 0).
Defined.

Lemma action_chain_run_witness :
  three_actions !! 0 = Some (Flow "f" (Some 1) (Some 3) [] [tracer]) /\
  do_chain three_actions (Some 1)
    [(1, act "a1"); (2, failing "a2" "boom"); (3, act "a3")] /\
  3 <= 3 /\
  Run in_order 3 three_actions 0 []
  = Some ([Fired (Some 1); Acted "a1"; Fired (Some 2); Acted "a2"], Some "boom").
Proof.
  assert (three_actions !! 0 = Some (Flow "f" (Some 1) (Some 3) [] [tracer]))
    as H1 by reflexivity.
  assert (do_chain three_actions (Some 1)
            [(1, act "a1"); (2, failing "a2" "boom"); (3, act "a3")]) as H2.
  { simpl. split; [reflexivity|]. exists "a1", (Some 2). split; [reflexivity|].
    split; [reflexivity|]. exists "a2", (Some 3). split; [reflexivity|].
    split; [reflexivity|]. exists "a3", None. split; reflexivity. }
  assert (3 <= 3) as H3 by lia.
  split; [exact H1|]. split; [exact H2|]. split; [exact H3|].
  exact (action_chain_run in_order 3 _ _ _ _ _ _ _ _ [] H1 H2 H3).
Defined.

Lemma two_flows_in_shape :
  wf_flow two_flows 0 "f1" [] [tracer] [1; 2] /\
  wf_flow two_flows 3 "f2" [veto "unused"] [] [4; 5].
Proof.
  split; (split; [reflexivity|]); simpl; (split; [reflexivity|]);
    eexists _, _; (split; [reflexivity|]); (split; [reflexivity|]);
    (split; [reflexivity|]); eexists _, _; (split; [reflexivity|]);
    split; reflexivity.
Qed.

Lemma Then_keeps_argument_flow_witness :
  wf_flow two_flows 0 "f1" [] [tracer] [1; 2] /\
  wf_flow two_flows 3 "f2" [veto "unused"] [] [4; 5] /\
  exists h',
    Then 0 (Some 3) two_flows = Some h' /\
    wf_flow h' 3 "f2" [veto "unused"] [] [4; 5].
Proof.
  destruct two_flows_in_shape as [H1 H2].
  assert (forall l : loc, l ∈ [1; 2] -> l ∉ [4; 5]) as H3.
  { intros l Hl Hl'. rewrite !elem_of_cons, elem_of_nil in Hl, Hl'. lia. }
  split; [exact H1|]. split; [exact H2|].
  eexists. split; [reflexivity|].
  exact (proj1 (Then_keeps_argument_flow _ _ _ _ _ _ _ _ _ _ _ _
                  H1 H2 H3 eq_refl)).
Defined.

Lemma keys_do_not_collide_witness :
  Clients.has_colon "user" = false /\
  (Clients.RedisID "user" "42" = Clients.RedisID "user" "42" ->
   "user" = "user" /\ "42" = "42").
Proof.
  split; [reflexivity|].
  exact (proj1 (ClientsFacts.keys_do_not_collide "user" "user" "" "" "42" "42"
                  eq_refl eq_refl)).
Defined.

Lemma Named_overrides_witness :
  map_to_list (Clients.scopes api_logger)
    ≡ₚ map_to_list (Clients.scopes api_logger) /\
  Clients.scopes
    (Clients.Named (map_to_list (Clients.scopes api_logger))
       (map_to_list worker_scopes) api_logger)
  = worker_scopes ∪ Clients.scopes api_logger.
Proof.
  split; [reflexivity|].
  exact (proj1 (ClientsFacts.Named_overrides _ _ api_logger worker_scopes
                  (reflexivity _) (reflexivity _))).
Defined.

End MoreInstances.

Section ParInstances.

Import Par.

Lemma one_success_closed :
  reachable [None] (State [Worker Finished None] [] true Ranging).
Proof.
  apply (rtc_l _ _ (State [Worker Finished None] [] false Ranging)).
  { exact (step_ok (init [None]) 0 eq_refl). }
  eapply rtc_l; [|apply rtc_refl].
  refine (step_close (State [Worker Finished None] [] false Ranging) _ eq_refl).
  by repeat constructor.
Qed.

Lemma one_success_at_next :
  reachable [None] (State [Worker Finished None] [] true AtNext).
Proof.
  eapply rtc_r; [exact one_success_closed|].
  exact (step_end (State [Worker Finished None] [] true Ranging)
           eq_refl eq_refl eq_refl).
Qed.

Lemma early_return_reachable :
  reachable [Some "A failed"; None]
    (State [Worker Sent (Some "A failed"); Worker Running None] [] false
       (Returned "A failed")).
Proof.
  apply (rtc_l _ _ (State [Worker Sent (Some "A failed"); Worker Running None]
                          ["A failed"] false Ranging)).
  { refine (step_send (init [Some "A failed"; None]) 0 "A failed" eq_refl _).
    simpl. lia. }
  eapply rtc_l; [|apply rtc_refl].
  exact (step_recv (State _ _ _ _) "A failed" [] eq_refl eq_refl).
Qed.

Lemma closed_after_all_sends_witness :
  reachable [None] (State [Worker Finished None] [] true Ranging) /\
  Forall (fun u => pc u = Finished) [Worker Finished None].
Proof.
  split; [exact one_success_closed|].
  exact (proj1 (ParMore.closed_after_all_sends _ _ one_success_closed eq_refl)).
Defined.

Lemma send_never_blocks_witness :
  reachable [Some "A failed"; None] (init [Some "A failed"; None]) /\
  length (errChan (init [Some "A failed"; None]))
    < length (workers (init [Some "A failed"; None])).
Proof.
  assert (reachable [Some "A failed"; None] (init [Some "A failed"; None]))
    as H by apply rtc_refl.
  split; [exact H|].
  exact (proj1 (ParMore.send_never_blocks _ _ 0 "A failed" H eq_refl)).
Defined.

Lemma goroutines_all_join_witness :
  reachable [Some "A failed"; None]
    (State [Worker Sent (Some "A failed"); Worker Running None] [] false
       (Returned "A failed")) /\
  exists s',
    rtc step (State [Worker Sent (Some "A failed"); Worker Running None] []
                false (Returned "A failed")) s' /\
    Forall (fun u => pc u = Finished) (workers s') /\
    main s' = Returned "A failed".
Proof.
  split; [exact early_return_reachable|].
  destruct (ParMore.goroutines_all_join _ _ early_return_reachable)
    as (s' & Hrtc & Hall & _ & _ & Hm).
  exists s'. split; [exact Hrtc|]. split; [exact Hall|].
  exact (Hm "A failed" eq_refl).
Defined.

Lemma each_failure_can_be_the_result_witness :
  Some "B failed" ∈ [Some "A failed"; Some "B failed"] /\
  exists s, reachable [Some "A failed"; Some "B failed"] s /\
            main s = Returned "B failed".
Proof.
  assert (Some "B failed" ∈ [Some "A failed"; Some "B failed"]) as H.
  { right. left. }
  split; [exact H|].
  exact (ParMore.each_failure_can_be_the_result _ _ H).
Defined.

Lemma next_only_after_join_witness :
  reachable [None] (State [Worker Finished None] [] true AtNext) /\
  Forall (fun u => pc u = Finished) [Worker Finished None].
Proof.
  split; [exact one_success_at_next|].
  exact (ParMore.next_only_after_join _ _ one_success_at_next eq_refl).
Defined.

End ParInstances.

(** * Errors are passed on, not made *)

Section ErrorFacts.

Context {W : Type} (sched : loc -> nat -> nat).

Implicit Types (h : list (cell W)) (l f : loc) (n next : Node) (w : W)
  (ics fics nics : list (Interceptor W)) (c : cell W) (e : error).

Lemma run_interceptors_error ics n w w' e :
  run_interceptors ics n w = (w', Some e) ->
  exists i w0, i ∈ ics /\ i n w0 = (w', Some e).
Proof.
  revert w. induction ics as [|i ics IH]; intros w; simpl; [done|].
  destruct (i n w) as [w1 [e1|]] eqn:Hi.
  - intros [= <- <-]. exists i, w. split; [left|done].
  - intros H. destruct (IH _ H) as (i' & w0 & Hin & Hi').
    exists i', w0. split; [by right|done].
Qed.

Lemma interceptor_error h ics n w w' e :
  run_interceptors ics n w = (w', Some e) -> error_source h ics e.
Proof.
  intros H. destruct (run_interceptors_error _ _ _ _ _ H) as (i & w0 & Hin & Hi).
  left. exists i, n, w0, w'. split; [by left|done].
Qed.

Lemma error_source_flow h f name hd tl fics nics ics ics' e :
  h !! f = Some (Flow name hd tl fics nics) ->
  (forall i, i ∈ ics' -> i ∈ fics \/ i ∈ nics) ->
  error_source h ics' e -> error_source h ics e.
Proof.
  intros Hf Hsub [(i & n & w & w' & [Hin|Hin] & Hi)|Hfn].
  - left. exists i, n, w, w'. split; [|done]. right.
    exists f, name, hd, tl, fics, nics. auto.
  - left. exists i, n, w, w'. split; [by right|done].
  - by right.
Qed.

Section Rec.

Variable h : list (cell W).
Variable rec : loc -> list (Interceptor W) -> W -> option (result W).
Hypothesis rec_error : forall l ics w w' e,
  rec l ics w = Some (w', Some e) -> error_source h ics e.

Lemma run_next_error next ics w w' e :
  run_next rec next ics w = Some (w', Some e) -> error_source h ics e.
Proof. destruct next as [l|]; simpl; [apply rec_error|done]. Qed.

Lemma run_each_error (nodes : list Node) ics w w' e :
  run_each rec nodes ics w = Some (w', Some e) -> error_source h ics e.
Proof.
  intros H. destruct (run_each_failure _ _ _ _ _ _ H) as (l & w0 & _ & Hl).
  by eapply rec_error.
Qed.

Lemma dispatch_error steps c l ics w w' e :
  h !! l = Some c ->
  dispatch sched rec h steps c l ics w = Some (w', Some e) -> error_source h ics e.
Proof.
  intros Hl.
  destruct c as [nm next fn|nm next cond tb|nm next nodes|nm next nodes
                 |nm hd tl fi ni]; simpl.
  - unfold doNode_run.
    destruct (run_interceptors ics (Some l) w) as [w1 [e1|]] eqn:Hic.
    { intros [= <- <-]. by eapply interceptor_error. }
    destruct (fn w1) as [w2 [e2|]] eqn:Hfn; [|apply run_next_error].
    intros [= <- <-]. right. by exists l, nm, next, fn, w1, w2.
  - unfold conditionalNode_run.
    destruct (run_interceptors ics (Some l) w) as [w1 [e1|]] eqn:Hic.
    { intros [= <- <-]. by eapply interceptor_error. }
    destruct (cond w1) as [w2 b].
    destruct (if b then tb else None) as [t|]; [|apply run_next_error].
    destruct (rec t ics w2) as [[w3 [e3|]]|] eqn:Ht; [| |done].
    + intros [= <- <-]. by eapply rec_error.
    + apply run_next_error.
  - unfold sequenceNode_run.
    destruct (run_each rec nodes ics w) as [[w1 [e1|]]|] eqn:Hn; [| |done].
    + intros [= <- <-]. by eapply run_each_error.
    + apply run_next_error.
  - unfold parallelNode_run.
    destruct (run_interceptors ics (Some l) w) as [w1 [e1|]] eqn:Hic.
    { intros [= <- <-]. by eapply interceptor_error. }
    destruct (machine h (sched l) steps 0 _ w1) as [[ts w2]|] eqn:Hm; [|done].
    destruct (returned ts 0) as [[e2|]|] eqn:Hr; [| |done].
    + intros [= <- <-]. by eapply parallel_section_error.
    + apply run_next_error.
  - unfold Flow_run. destruct hd as [hd|]; [|done].
    destruct (run_interceptors fi None w) as [w1 [e1|]] eqn:Hic.
    + intros [= <- <-].
      eapply (error_source_flow _ _ _ _ _ _ _ ics fi); [done|by left|].
      by eapply interceptor_error.
    + intros H. eapply (error_source_flow _ _ _ _ _ _ _ ics ni); [done|by right|].
      by eapply rec_error.
Qed.

End Rec.

Lemma run_error fuel h : forall l ics w w' e,
  run sched fuel h l ics w = Some (w', Some e) -> error_source h ics e.
Proof.
  induction fuel as [|fuel IH]; intros l ics w w' e; [done|].
  rewrite run_unfold. destruct (h !! l) as [c|] eqn:Hl; [|done].
  by apply dispatch_error.
Qed.

(** X21. [Run] makes no error of its own: an error it returns was
    returned, as it is, by a call of an interceptor of some flow in the store
    or by a call of the function of some action node in the store. *)
Theorem Run_passes_errors_on fuel h f w w' e :
  Run sched fuel h f w = Some (w', Some e) ->
  (exists i n w0 w1,
     (exists g name hd tl fics nics,
        h !! g = Some (Flow name hd tl fics nics) /\ (i ∈ fics \/ i ∈ nics)) /\
     i n w0 = (w1, Some e)) \/
  (exists l name next fn w0 w1,
     h !! l = Some (doNode name next fn) /\ fn w0 = (w1, Some e)).
Proof.
  intros Hrun.
  assert (error_source h [] e) as [(i & n & w0 & w1 & [Hin|Hin] & Hi)|Hfn].
  { unfold Run in Hrun.
    destruct (h !! f) as [[| | | |nm hd tl fi ni]|] eqn:Hf; try done.
    destruct hd as [hd|]; [|done].
    destruct (run_interceptors fi None w) as [wa [ea|]] eqn:Hic.
    - injection Hrun as <- <-.
      eapply (error_source_flow _ _ _ _ _ _ _ [] fi); [done|by left|].
      by eapply interceptor_error.
    - eapply (error_source_flow _ _ _ _ _ _ _ [] ni); [done|by right|].
      by eapply run_error. }
  - by apply elem_of_nil in Hin.
  - left. by exists i, n, w0, w1.
  - by right.
Qed.

End ErrorFacts.

Section ErrorInstances.

Import Demo.

Lemma Run_passes_errors_on_witness :
  Run in_order 2 three_actions 0 []
    = Some ([Fired (Some 1); Acted "a1"; Fired (Some 2); Acted "a2"], Some "boom") /\
  exists l name next fn w0 w1,
    three_actions !! l = Some (doNode name next fn) /\
    fn w0 = (w1, Some "boom").
Proof.
  assert (Run in_order 2 three_actions 0 []
          = Some ([Fired (Some 1); Acted "a1"; Fired (Some 2); Acted "a2"],
                  Some "boom")) as H by reflexivity.
  split; [exact H|].
  destruct (Run_passes_errors_on in_order _ _ _ _ _ _ H) as [Hi|Hfn];
    [|exact Hfn].
  exists 2, "a2", (Some 3), (failing "a2" "boom"), [], [Acted "a2"].
  split; reflexivity.
Defined.

(** The second of three actions fails: a goroutine that runs the first by
    itself returns the error, in the world in which [run] returns it. *)
Example goroutine_runs_three_actions :
  sequential three_actions /\
  run in_order 3 three_actions 1 [tracer] []
    = Some ([Fired (Some 1); Acted "a1"; Fired (Some 2); Acted "a2"], Some "boom") /\
  exists m : nat, forall steps, m <= steps ->
    machine three_actions (fun _ => 0) steps 0
      [Runs (Call (Some 1) [tracer] (Ret None))] []
    = Some ([Runs (Ret (Some "boom"))],
            [Fired (Some 1); Acted "a1"; Fired (Some 2); Acted "a2"]).
Proof.
  assert (sequential three_actions) as Hseq.
  { intros [|[|[|[|l]]]] name next nodes; vm_compute; discriminate. }
  split; [exact Hseq|]. split; [reflexivity|].
  exact (goroutine_alone_is_run in_order three_actions Hseq 3 1 [tracer] [] _ _
           (fun _ => 0) eq_refl).
Qed.


End ErrorInstances.
